(** * gguf: unmarshalling flat tensor records into nested GX structures

    A shallow embedding of [encoding/gguf/gguf.go] (the path walker and the
    leaf materializer) and of the decoder that serialises access to the
    tensor streams, followed by the properties established about them.

    Conventions of the embedding:
    - Go's [int] and [int64] are 64-bit two's-complement integers and
      [uint64] is a 64-bit unsigned integer; values are carried as [Z] and
      every conversion and multiplication writes its wrap-around out.
    - A Go string is a sequence of bytes: [string].
    - A function that may return an error or panic returns a [result].
    - [map[int][]keyValue] is a [gmap Z (list keyValue)];
      [map[string]bool] is a [gmap string bool]. *)

From Stdlib Require Import ZArith List Bool Lia Init.Byte Ascii String.
From stdpp Require Import gmap strings list fin_maps.

Set Warnings "-register-all".
Local Open Scope Z_scope.

(** ** Machine integers *)

Module Int.
Definition two63 : Z := 2 ^ 63.
Definition two64 : Z := 2 ^ 64.
Definition maxInt : Z := two63 - 1.
Definition minInt : Z := - two63.
Definition maxUint64 : Z := two64 - 1.

(** Truncation of an integer to a signed 64-bit [int]. *)
Definition wrap (z : Z) : Z := (z + two63) mod two64 - two63.

(** [int(dim)] for [dim : uint64]. *)
Definition of_uint64 (u : Z) : Z := wrap u.

(** [a * b] on [int]. *)
Definition mul (a b : Z) : Z := wrap (a * b).

(** [a / b] on [int], for [b <> 0]: Go truncates toward zero. *)
Definition div (a b : Z) : Z := Z.quot a b.

Definition in_int (z : Z) : Prop := minInt <= z <= maxInt.
Definition in_uint64 (z : Z) : Prop := 0 <= z <= maxUint64.
End Int.

(** ** Errors and results *)

(** The two causes [strconv] reports in a [*NumError]. *)
Inductive NumError := ErrSyntax | ErrRange.

(** One constructor per [errors.Errorf] call site of the package, with the
    arguments of its format string; [External] stands for an error produced
    by a collaborator (the container's stream opener, a failing read) and
    [EOF] for [io.EOF]. *)
Inductive error :=
| NoFieldNamed (name : string) (available : list string)
| NoElementAtIndex (i : Z)
| ElementHasNoValue
| CannotBuildSlice (i : Z) (cause : NumError)
| NotEnoughBytes (got want : Z)
| AxisSizeMismatch (axes : list Z) (length size width quotient : Z)
| EmptyLeaf
| NotALeaf
| External (msg : string)
| EOF.

(** What a call produces: a value with a nil error, a non-nil error, or a
    run-time panic. *)
Inductive result (A : Type) :=
| Ok (a : A)
| Err (e : error)
| Panic.
Arguments Ok {A} a.
Arguments Err {A} e.
Arguments Panic {A}.

(** Sequencing: an error or a panic ends the call. *)
#[export] Instance result_ret : MRet result := @Ok.
#[export] Instance result_bind : MBind result := λ A B k r,
  match r with
  | Ok a => k a
  | Err e => Err e
  | Panic => Panic
  end.

(** The spec's failure taxonomy, by call site. *)
Inductive failure_kind :=
| NoSuchField | NoSuchIndex | MalformedIndex | ShortRead | SizeMismatch
| EmptyLeafKind | AmbiguousLeaf | Propagated.

Definition kind_of (e : error) : failure_kind :=
  match e with
  | NoFieldNamed _ _ => NoSuchField
  | NoElementAtIndex _ => NoSuchIndex
  | ElementHasNoValue | CannotBuildSlice _ _ => MalformedIndex
  | NotEnoughBytes _ _ | EOF => ShortRead
  | AxisSizeMismatch _ _ _ _ _ => SizeMismatch
  | EmptyLeaf => EmptyLeafKind
  | NotALeaf => AmbiguousLeaf
  | External _ => Propagated
  end.

(** ** [strconv.Atoi]

    The standard library's parser, for base 10 on a 64-bit platform. It
    returns a value together with an optional [*NumError]. *)

Module strconv.
Definition byte_of (c : ascii) : Z := Z.of_N (Ascii.N_of_ascii c).

(** [ch -= '0'] on a byte, then the test [ch > 9] negated. *)
Definition is_digit (c : ascii) : bool := ((byte_of c - 48) mod 256) <=? 9.
Definition digit (c : ascii) : Z := (byte_of c - 48) mod 256.

(** The loop of [ParseUint] for base 10 and 64 bits: a byte that is not a
    decimal digit is a syntax error (a letter yields a digit value of at
    least 10, the base); overflowing [uint64] is a range error. *)
Definition cutoff : Z := Int.maxUint64 / 10 + 1.

Fixpoint ParseUint_from (n : Z) (s : string) : Z * option NumError :=
  match s with
  | EmptyString => (n, None)
  | String c s' =>
      if negb (is_digit c) then (0, Some ErrSyntax)
      else if n >=? cutoff then (Int.maxUint64, Some ErrRange)
      else
        let n10 := (n * 10) mod Int.two64 in
        let n1 := (n10 + digit c) mod Int.two64 in
        if (n1 <? n10) || (n1 >? Int.maxUint64)
        then (Int.maxUint64, Some ErrRange)
        else ParseUint_from n1 s'
  end.

Definition ParseUint (s : string) : Z * option NumError :=
  match s with
  | EmptyString => (0, Some ErrSyntax)
  | _ => ParseUint_from 0 s
  end.

Definition ParseInt (s : string) : Z * option NumError :=
  match s with
  | EmptyString => (0, Some ErrSyntax)
  | String c0 rest =>
      let neg := Ascii.eqb c0 "-" in
      let s' := if Ascii.eqb c0 "+" then rest
                else if neg then rest else s in
      match ParseUint s' with
      | (_, Some ErrSyntax) => (0, Some ErrSyntax)
      | (un, _) =>
          if negb neg && (un >=? Int.two63) then (Int.two63 - 1, Some ErrRange)
          else if neg && (un >? Int.two63) then (- Int.two63, Some ErrRange)
          else
            let n := Int.wrap un in
            (if neg then Int.wrap (- n) else n, None)
      end
  end.

(** The fast path of [Atoi]: at most 18 bytes, so no overflow. *)
Fixpoint fast_digits (n : Z) (s : string) : option Z :=
  match s with
  | EmptyString => Some n
  | String c s' =>
      if negb (is_digit c) then None
      else fast_digits (n * 10 + digit c) s'
  end.

Definition Atoi (s : string) : Z * option NumError :=
  let sLen := Z.of_nat (String.length s) in
  if (0 <? sLen) && (sLen <? 19) then
    match s with
    | EmptyString => (0, Some ErrSyntax)
    | String c0 rest =>
        let signed := Ascii.eqb c0 "-" || Ascii.eqb c0 "+" in
        let body := if signed then rest else s in
        if signed && (Z.of_nat (String.length body) <? 1)
        then (0, Some ErrSyntax)
        else
          match fast_digits 0 body with
          | None => (0, Some ErrSyntax)
          | Some n => (if Ascii.eqb c0 "-" then - n else n, None)
          end
    end
  else ParseInt s.
End strconv.

(** ** Tensor records *)

(** The bytes a stream delivers, and how it ends once they are consumed:
    [None] is a clean end of stream, [Some e] a failing read. *)
Record stream := Stream {
  content : list Byte.byte;
  ending : option error
}.

(** A tensor of the container, as the [TensorInfo] interface exposes it:
    [Open] is the outcome of the container's own [Reader()]. *)
Record TensorInfo := {
  Name : string;
  Open : error + stream;
  Size : Z;
  Dimensions : list Z
}.

(** [Size()] is an [int64] and every dimension a [uint64]. *)
Definition well_typed (t : TensorInfo) : Prop :=
  Int.in_int (Size t) ∧ Forall Int.in_uint64 (Dimensions t).

(** ** The path walker *)

Inductive keyValue := KeyValue {
  parent : option keyValue;
  name : string;
  path : list string;
  info : TensorInfo
}.

Record walkerStruct := WalkerStruct { struct_set : list keyValue }.
Record walkerSlice := WalkerSlice { slice_set : gmap Z (list keyValue) }.
Record walkerData := WalkerData { data_set : list keyValue }.

(** [kv.path[1:]] panics on an empty path. *)
Definition child (kv : keyValue) (name : string) : result keyValue :=
  match path kv with
  | [] => Panic
  | _ :: rest =>
      Ok {| parent := Some kv; name := name; path := rest; info := info kv |}
  end.

Fixpoint fullPath (kv : keyValue) : string :=
  let full :=
    match parent kv with
    | Some p => fullPath p
    | None => ""%string
    end in
  (full +:+ name kv)%string.

(** The loop of [selectChildren], started with the children found so far. *)
Fixpoint selectChildren_from (children : list keyValue)
    (set : list keyValue) (name : string) : result (list keyValue) :=
  match set with
  | [] => Ok children
  | kv :: set' =>
      match path kv with
      | [] => selectChildren_from children set' name
      | first :: _ =>
          if negb (String.eqb first name)
          then selectChildren_from children set' name
          else
            c ← child kv name;
            selectChildren_from (children ++ [c]) set' name
      end
  end.

Definition selectChildren (set : list keyValue) (name : string)
    : result (list keyValue) :=
  selectChildren_from [] set name.

(** The key stored for an entry by [keys]: its next segment, or the empty
    string when no segment remains. *)
Definition first_or_empty (kv : keyValue) : string :=
  match path kv with
  | [] => ""%string
  | first :: _ => first
  end.

Fixpoint keys_from (keys : gmap string bool) (set : list keyValue)
    : gmap string bool :=
  match set with
  | [] => keys
  | kv :: set' => keys_from (<[first_or_empty kv := true]> keys) set'
  end.

(** [maps.Keys] returns the keys in an unspecified order; the order of
    [map_to_list] stands for it. *)
Definition maps_Keys (m : gmap string bool) : list string :=
  (map_to_list m).*1.

Definition keys (set : list keyValue) : list string :=
  maps_Keys (keys_from ∅ set).

Definition Field (w : walkerStruct) (name : string) : result walkerData :=
  set ← selectChildren (struct_set w) name;
  let child := WalkerData set in
  if (Z.of_nat (length (data_set child)) =? 0)
  then Err (NoFieldNamed name (keys (struct_set w)))
  else Ok child.

Definition TagName (_ : walkerStruct) : string := "gguf".

Definition Len (w : walkerSlice) : Z := Z.of_nat (size (slice_set w)).

Definition Index (w : walkerSlice) (i : Z) : result walkerData :=
  match slice_set w !! i with
  | None => Err (NoElementAtIndex i)
  | Some children => Ok (WalkerData children)
  end.

Definition ToDataStruct (w : walkerData) : result walkerStruct :=
  Ok (WalkerStruct (data_set w)).

Record arrayFuture := ArrayFuture { kv : keyValue }.

Definition ValueFuture (w : walkerData) : result arrayFuture :=
  if (Z.of_nat (length (data_set w)) =? 0) then Err EmptyLeaf
  else if (Z.of_nat (length (data_set w)) >? 1) then Err NotALeaf
  else match data_set w !! 0%nat with
       | Some kv => Ok (ArrayFuture kv)
       | None => Panic
       end.

(** The loop of [ToDataSlice], started with the map built so far. Indexing
    the map at an absent key yields the nil slice. *)
Fixpoint ToDataSlice_from (sl : gmap Z (list keyValue))
    (set : list keyValue) : result walkerSlice :=
  match set with
  | [] => Ok (WalkerSlice sl)
  | kv :: set' =>
      match path kv with
      | [] => Err ElementHasNoValue
      | first :: _ =>
          match strconv.Atoi first with
          | (i, Some err) => Err (CannotBuildSlice i err)
          | (i, None) =>
              c ← child kv first;
              ToDataSlice_from (<[i := default [] (sl !! i) ++ [c]]> sl) set'
          end
      end
  end.

Definition ToDataSlice (w : walkerData) : result walkerSlice :=
  ToDataSlice_from ∅ (data_set w).

(** [strings.Split(s, sep)] for a separator of one byte: the segments
    between the separators, the last one after [cur]. *)
Fixpoint strings_Split_from (cur : string) (s : string) (sep : ascii)
    : list string :=
  match s with
  | EmptyString => [cur]
  | String c s' =>
      if Ascii.eqb c sep then cur :: strings_Split_from "" s' sep
      else strings_Split_from (cur +:+ String c "") s' sep
  end.

Definition strings_Split (s : string) (sep : ascii) : list string :=
  strings_Split_from "" s sep.

(** The entry [UnmarshalOnDevice] appends for a tensor whose name splits
    into [segments], and the view it hands to [encoding.Unmarshal]. *)
Definition root_entry (segments : list string) (ti : TensorInfo) : keyValue :=
  {| parent := None; name := ""; path := segments; info := ti |}.

Definition root_view (tensors : list TensorInfo) : walkerData :=
  WalkerData ((λ info, root_entry (strings_Split (Name info) ".") info)
                <$> tensors).

(** ** The decoder: one lock for all tensor streams *)

(** What a call that touches the decoder's [sync.Mutex] does, from a given
    state of the lock ([true] is locked): it returns with the lock in a new
    state, waits for the lock, or dies on [Unlock] of an unlocked mutex
    (a fatal error of the Go runtime). *)
Inductive outcome (A : Type) :=
| Returns (a : A) (locker : bool)
| Waits
| Fatal.
Arguments Returns {A} a locker.
Arguments Waits {A}.
Arguments Fatal {A}.

Definition gate (A : Type) : Type := bool → outcome A.

#[export] Instance gate_ret : MRet gate := λ A a locker, Returns a locker.
#[export] Instance gate_bind : MBind gate := λ A B k m locker,
  match m locker with
  | Returns a locker' => k a locker'
  | Waits => Waits
  | Fatal => Fatal
  end.

Definition Lock : gate unit :=
  λ locker, if locker then Waits else Returns () true.

Definition Unlock : gate unit :=
  λ locker, if locker then Returns () false else Fatal.

(** The handle [Reader] hands out: the stream, and (implicitly) the decoder
    whose lock it holds. *)
Record reader := { Reader_ : stream }.

(** [tensorInfo.Reader] *)
Definition Reader (ti : TensorInfo) : gate (result reader) :=
  _ ← Lock;
  match Open ti with
  | inl err => _ ← Unlock; mret (Err err)
  | inr r => mret (Ok {| Reader_ := r |})
  end.

(** [reader.Close] *)
Definition Close (r : reader) : gate (option error) :=
  _ ← Unlock; mret None.

(** ** The leaf materializer *)

(** A [float32] is carried as the four bytes that hold it in memory. *)
Record float32 := Float32 { byte0 : Byte.byte; byte1 : Byte.byte;
                            byte2 : Byte.byte; byte3 : Byte.byte }.

(** [types.ArrayFloat32(flat, axes...)] *)
Record ArrayBridge := ArrayFloat32 { flat : list float32; axes : list Z }.

(** [io.CopyN(&buf, r, n)]: the buffer written, the count and the error.
    [Copy] over a [LimitReader] stops after [n] bytes (none when [n <= 0])
    or when the stream ends, and reports only a failing read. *)
Definition io_CopyN (src : stream) (n : Z) : list Byte.byte * Z * option error :=
  let buf := take (Z.to_nat n) (content src) in
  let written := Z.of_nat (length buf) in
  let err := if written <? n then ending src else None in
  if written =? n then (buf, n, None)
  else if (written <? n) && bool_decide (err = None) then (buf, written, Some EOF)
  else (buf, written, err).

(** [unsafe.Slice] at the address of the first byte of [mem], taken as a
    pointer to [float32]: [len] consecutive groups of four bytes. [None]
    when the slice would extend past [mem] (undefined behaviour). *)
Fixpoint unsafe_Slice (mem : list Byte.byte) (len : nat) {struct len}
    : option (list float32) :=
  match len with
  | O => Some []
  | S len' =>
      match mem with
      | a :: b :: c :: d :: mem' =>
          option_map (cons (Float32 a b c d)) (unsafe_Slice mem' len')
      | _ => None
      end
  end.

Definition float32ByteSize : Z := 4.

(** The loop over [dims], at index [i], of [n] dimensions in all. *)
Fixpoint axes_loop (n i : nat) (dims : list Z) (axes : list Z) (length : Z)
    : list Z * Z :=
  match dims with
  | [] => (axes, length)
  | dim :: dims' =>
      axes_loop n (S i) dims'
        (<[(n - 1 - i)%nat := Int.of_uint64 dim]> axes)
        (Int.mul length (Int.of_uint64 dim))
  end.

(** [arrayFuture.Value] from the successful return of [tensor.Reader()] to
    its [return]: everything the deferred [r.Close()] waits for. *)
Definition Value_body (tensor : TensorInfo) (r : reader) : result ArrayBridge :=
  let '(buf, n, err) := io_CopyN (Reader_ r) (Size tensor) in
  match err with
  | Some err => Err err
  | None =>
      if negb (n =? Size tensor) then Err (NotEnoughBytes n (Size tensor))
      else
        let dims := Dimensions tensor in
        let '(axes, length) :=
          axes_loop (List.length dims) 0 dims
            (replicate (List.length dims) 0) 1 in
        if negb (length =? Int.div (Size tensor) float32ByteSize)
        then Err (AxisSizeMismatch axes length (Size tensor) float32ByteSize
                    (Int.div (Size tensor) float32ByteSize))
        else
          match buf with
          | [] => Panic (* buf.Bytes()[0]: index out of range *)
          | _ =>
              if length <? 0 then Panic (* unsafe.Slice: len out of range *)
              else match unsafe_Slice buf (Z.to_nat length) with
                   | Some flat => Ok (ArrayFloat32 flat axes)
                   | None => Panic (* past the buffer; see [Value_in_bounds] *)
                   end
          end
  end.

Definition Value (pr : arrayFuture) : gate (result ArrayBridge) :=
  let tensor := info (kv pr) in
  r ← Reader tensor;
  match r with
  | Err err => mret (Err err)
  | Panic => mret Panic
  | Ok r =>
      (* defer r.Close() *)
      let res := Value_body tensor r in
      _ ← Close r; mret res
  end.

(** ** Several callers of [Value] at once

    Each caller runs [Value] on its own tensor; the calls interleave at the
    operations on the shared lock. A caller is at one of these points. *)
Inductive pc :=
| AtLock                     (* in [Reader], before [Lock()] *)
| AtOpen                     (* [Lock()] returned, before the container opens *)
| AtUnlock (err : error)     (* the container failed, before [Unlock()] *)
| AtBody (r : reader)        (* [Reader] returned the handle *)
| AtClose (r : reader) (res : result ArrayBridge) (* the deferred [Close] *)
| Returned (res : result ArrayBridge).

Inductive event := OpenedStream | ClosedStream.

#[export] Instance event_eq_dec : EqDecision event := ltac:(solve_decision).

(** One step of a caller; [None] once it has returned. *)
Definition thread_step (ti : TensorInfo) (p : pc)
    : option (gate (pc * list event)) :=
  match p with
  | AtLock => Some (_ ← Lock; mret (AtOpen, []))
  | AtOpen =>
      Some (mret (match Open ti with
                  | inl err => (AtUnlock err, [])
                  | inr r => (AtBody {| Reader_ := r |}, [OpenedStream])
                  end))
  | AtUnlock err => Some (_ ← Unlock; mret (Returned (Err err), []))
  | AtBody r => Some (mret (AtClose r (Value_body ti r), []))
  | AtClose r res => Some (_ ← Close r; mret (Returned res, [ClosedStream]))
  | Returned _ => None
  end.

Record system := System {
  locker : bool;
  threads : list (TensorInfo * pc);
  log : list (nat * event)
}.

Definition initial (tensors : list TensorInfo) : system :=
  {| locker := false; threads := (λ ti, (ti, AtLock)) <$> tensors; log := [] |}.

(** Caller [i] takes its next step. *)
Inductive step_of (i : nat) (s : system) : system → Prop :=
| step_intro ti p m p' evs locker' :
    threads s !! i = Some (ti, p) →
    thread_step ti p = Some m →
    m (locker s) = Returns (p', evs) locker' →
    step_of i s {| locker := locker';
                   threads := <[i := (ti, p')]> (threads s);
                   log := log s ++ ((λ e, (i, e)) <$> evs) |}.

Definition step (s s' : system) : Prop := ∃ i, step_of i s s'.

Definition reachable (tensors : list TensorInfo) (s : system) : Prop :=
  rtc step (initial tensors) s.

(** The caller is between its [Lock()] and the matching [Unlock()]. *)
Definition holds_lock (p : pc) : bool :=
  match p with
  | AtOpen | AtUnlock _ | AtBody _ | AtClose _ _ => true
  | AtLock | Returned _ => false
  end.

(** The caller has a stream open: it got a handle and has not closed it. *)
Definition stream_open (p : pc) : bool :=
  match p with
  | AtBody _ | AtClose _ _ => true
  | _ => false
  end.

Definition count_pc (f : pc → bool) (ts : list (TensorInfo * pc)) : nat :=
  length (filter (λ t, f t.2 = true) ts).

Definition count_events (i : nat) (e : event) (l : list (nat * event)) : nat :=
  length (filter (λ x, x = (i, e)) l).

(** The caller has not yet asked the container for its stream, or was
    refused it. *)
Definition before_open (p : pc) : bool :=
  match p with
  | AtLock | AtOpen | AtUnlock _ => true
  | _ => false
  end.

Definition bit (b : bool) : nat := if b then 1%nat else 0%nat.

(** What holds of every state the callers can reach: the lock is held
    exactly when one caller is between its [Lock()] and its [Unlock()], and
    each caller has opened one stream more than it has closed exactly while
    its stream is open, and never more than one. *)
Definition lock_invariant (s : system) : Prop :=
  count_pc holds_lock (threads s) = bit (locker s)
  ∧ ∀ i ti p, threads s !! i = Some (ti, p) →
      count_events i OpenedStream (log s)
      = (count_events i ClosedStream (log s) + bit (stream_open p))%nat
      ∧ (count_events i OpenedStream (log s) ≤ 1)%nat
      ∧ (before_open p = true → count_events i OpenedStream (log s) = 0%nat).

(** A caller run alone, for at most [fuel] steps. *)
Fixpoint run_thread (fuel : nat) (ti : TensorInfo) (p : pc) (l : bool)
    : outcome pc :=
  match fuel with
  | O => Returns p l
  | S fuel' =>
      match thread_step ti p with
      | None => Returns p l
      | Some m =>
          match m l with
          | Returns (p', _) l' => run_thread fuel' ti p' l'
          | Waits => Waits
          | Fatal => Fatal
          end
      end
  end.

(** ** Vocabulary of the statements *)

(** The entry [kv] after its next segment was consumed under [name]. *)
Definition consumed (name : string) (kv : keyValue) : keyValue :=
  {| parent := Some kv; name := name; path := tail (path kv);
     info := info kv |}.

(** A base-10 integer literal, read independently of [strconv]: an optional
    sign, then one or more decimal digits, of value within [int]. *)
Definition is_decimal_digit (c : ascii) : bool :=
  (48 <=? strconv.byte_of c) && (strconv.byte_of c <=? 57).

Fixpoint digits_value (acc : Z) (s : string) : option Z :=
  match s with
  | EmptyString => Some acc
  | String c s' =>
      if is_decimal_digit c
      then digits_value (10 * acc + (strconv.byte_of c - 48)) s'
      else None
  end.

Definition unsigned_literal (s : string) : option Z :=
  match s with
  | EmptyString => None
  | _ => digits_value 0 s
  end.

Definition signed_literal (s : string) : option Z :=
  match s with
  | EmptyString => None
  | String c body =>
      if Ascii.eqb c "-" then Z.opp <$> unsigned_literal body
      else if Ascii.eqb c "+" then unsigned_literal body
      else unsigned_literal s
  end.

Definition int_literal (s : string) : option Z :=
  match signed_literal s with
  | Some v => if (Int.minInt <=? v) && (v <=? Int.maxInt) then Some v else None
  | None => None
  end.

(** The two ways [ParseUint] fails. *)
Definition uint_error (r : Z * option NumError) : Prop :=
  r = (0, Some ErrSyntax) ∨ r = (Int.maxUint64, Some ErrRange).

(** What [ParseInt] makes of the sign and of the magnitude that [ParseUint]
    returned. *)
Definition signed (neg : bool) (r : Z * option NumError)
    : Z * option NumError :=
  match r with
  | (_, Some ErrSyntax) => (0, Some ErrSyntax)
  | (un, _) =>
      if negb neg && (un >=? Int.two63) then (Int.two63 - 1, Some ErrRange)
      else if neg && (un >? Int.two63) then (- Int.two63, Some ErrRange)
      else
        let n := Int.wrap un in
        (if neg then Int.wrap (- n) else n, None)
  end.

(** The integer [Atoi] reads in the next segment of [kv]. *)
Definition index_of (kv : keyValue) : Z :=
  (strconv.Atoi (first_or_empty kv)).1.

(** [kv] has a next segment and [Atoi] accepts it. *)
Definition well_indexed (kv : keyValue) : bool :=
  match path kv with
  | [] => false
  | first :: _ => bool_decide ((strconv.Atoi first).2 = None)
  end.

(** The integer literal in the next segment of [kv], if it has both. *)
Definition literal_index (kv : keyValue) : option Z :=
  match path kv with
  | [] => None
  | first :: _ => int_literal first
  end.

(** The entries of [set] that [ToDataSlice] files under index [i]. *)
Definition elements_at (i : Z) (set : list keyValue) : list keyValue :=
  (λ kv, consumed (first_or_empty kv) kv) <$> filter (λ kv, index_of kv = i) set.

(** The product of the dimensions, as a mathematical integer. *)
Definition product (dims : list Z) : Z := foldr Z.mul 1 dims.

(** Every dimension and the product of all of them fit in an [int]. *)
Definition fits_int (dims : list Z) : bool :=
  forallb (λ d, (0 <=? d) && (d <=? Int.maxInt)) dims
  && (product dims <=? Int.maxInt).

(** The element count as the loop computes it. *)
Definition int_product (length : Z) (dims : list Z) : Z :=
  foldl (λ length dim, Int.mul length (Int.of_uint64 dim)) length dims.

(** The bytes of a sequence of floats, in memory order. *)
Definition bytes_of (flat : list float32) : list Byte.byte :=
  flat ≫= λ f, [byte0 f; byte1 f; byte2 f; byte3 f].

(** ** Sample records *)

(** A tensor whose stream delivers [bytes] and then ends. *)
Definition tensor (name : string) (dims : list Z) (size : Z)
    (bytes : list Byte.byte) : TensorInfo :=
  {| Name := name; Open := inr (Stream bytes None);
     Size := size; Dimensions := dims |}.

Definition zeros (n : nat) : list Byte.byte := replicate n Byte.x00.

Definition f32 : TensorInfo := tensor "w" [1] 4 (zeros 4).

(** The entry of a tensor named by a single segment, once that segment was
    selected: no segment remains. *)
Definition leaf_of (t : TensorInfo) : keyValue :=
  consumed (Name t) (root_entry [Name t] t).

(** A container of three tensors. *)
Definition model : list TensorInfo :=
  [tensor "layers.0.weight" [1] 4 (zeros 4);
   tensor "layers.1.weight" [3; 2] 24 (zeros 24);
   tensor "norm" [1] 4 (zeros 4)].

(** Two dimensions whose product is [2^64 + 1], with the four bytes of one
    float. *)
Definition overflowing : TensorInfo :=
  tensor "w" [274177; 67280421310721] 4 (zeros 4).

(** One dimension of a single element, with five bytes. *)
Definition five_bytes : TensorInfo := tensor "w" [1] 5 (zeros 5).

(** The records of the spec's examples: dimensions [3, 2] with 24 bytes and
    with 20 bytes. *)
Definition matrix24 : TensorInfo := tensor "w" [3; 2] 24 (zeros 24).
Definition matrix20 : TensorInfo := tensor "w" [3; 2] 20 (zeros 20).

(** A view with the indices 0, 7 and 0 again, and the sequence built from
    it. *)
Definition sparse_view : walkerData :=
  WalkerData [root_entry ["0"; "w"] f32; root_entry ["7"; "w"] f32;
              root_entry ["0"; "b"] f32].

Definition sparse_slice : walkerSlice :=
  WalkerSlice
    (<[7 := [consumed "7" (root_entry ["7"; "w"] f32)]]>
       (<[0 := [consumed "0" (root_entry ["0"; "w"] f32);
                consumed "0" (root_entry ["0"; "b"] f32)]]> ∅)).

(** Two callers, the first of which holds the stream of its tensor while
    the second is still before [Lock()]. *)
Definition busy : system :=
  {| locker := true;
     threads := [(f32, AtBody {| Reader_ := Stream (zeros 4) None |});
                 (f32, AtLock)];
     log := [(0%nat, OpenedStream)] |}.

(** ** Vocabulary of the further statements *)

(** Descending from a view along field names: each name is looked up in
    the struct shape of the view reached so far. *)
Fixpoint descend (w : walkerData) (names : list string) : result walkerData :=
  match names with
  | [] => Ok w
  | name :: names' =>
      s ← ToDataStruct w;
      next ← Field s name;
      descend next names'
  end.

(** The entry [kv] after the segments [names] were consumed one by one. *)
Fixpoint consumed_along (names : list string) (kv : keyValue) : keyValue :=
  match names with
  | [] => kv
  | name :: names' => consumed_along names' (consumed name kv)
  end.

(** The number of entries filed in a sequence view, all indices together. *)
Definition filed (sl : gmap Z (list keyValue)) : nat :=
  map_fold (λ _ entries n, (length entries + n)%nat) 0%nat sl.




(** The steps a caller at [p] can still take, at most. *)
Definition steps_left (p : pc) : nat :=
  match p with
  | AtLock => 4
  | AtOpen => 3
  | AtBody _ => 2
  | AtUnlock _ | AtClose _ _ => 1
  | Returned _ => 0
  end.


(** The second tensor of the sample container. *)
Definition matrix24' : TensorInfo :=
  tensor "layers.1.weight" [3; 2] 24 (zeros 24).

(** Eight bytes declared, four delivered. *)
Definition truncated : TensorInfo := tensor "w" [2] 8 (zeros 4).

(** A negative size. *)
Definition negative : TensorInfo := tensor "w" [1] (-4) (zeros 4).

(** A tensor of no element and no byte. *)
Definition nothing : TensorInfo := tensor "w" [0] 0 [].


(** * Properties of the path walker *)

Section Walker.

Implicit Types (set children : list keyValue) (kv : keyValue).

Lemma child_nonempty kv first rest name :
  path kv = first :: rest → child kv name = Ok (consumed name kv).
Proof. intros E. unfold child, consumed. rewrite E. reflexivity. Qed.

Lemma selectChildren_from_spec set : ∀ children name,
  selectChildren_from children set name
  = Ok (children
        ++ (consumed name <$> filter (λ kv, head (path kv) = Some name) set)).
Proof.
  induction set as [|kv set IH]; intros children name; simpl.
  - by rewrite app_nil_r.
  - destruct (path kv) as [|first rest] eqn:E.
    + rewrite IH, filter_cons_False; [done|]. by rewrite E.
    + destruct (String.eqb first name) eqn:Heq; simpl.
      * apply String.eqb_eq in Heq as ->.
        rewrite (child_nonempty _ _ _ _ E). simpl.
        unfold mbind, result_bind. rewrite IH.
        rewrite filter_cons_True by (by rewrite E).
        by rewrite fmap_cons, <- app_assoc.
      * apply String.eqb_neq in Heq.
        rewrite IH, filter_cons_False; [done|].
        rewrite E; simpl. congruence.
Qed.

(** C5. [selectChildren] never panics and returns, in the order of the
    set, exactly the entries whose next remaining segment is [name], each
    with that segment consumed (its path is the tail, its record is
    unchanged); an entry with no remaining segment is the parent of no
    returned entry. *)
Theorem selectChildren_exact set name :
  ∃ children,
    selectChildren set name = Ok children
    ∧ children
      = (consumed name <$> filter (λ kv, head (path kv) = Some name) set)
    ∧ (∀ c, c ∈ children ↔
            ∃ kv rest, kv ∈ set ∧ path kv = name :: rest
                       ∧ c = KeyValue (Some kv) name rest (info kv))
    ∧ (∀ c kv, c ∈ children ∧ path kv = [] → parent c ≠ Some kv).
Proof.
  eexists. split; [apply selectChildren_from_spec|]. simpl.
  assert (Hmem : ∀ c,
    c ∈ consumed name <$> filter (λ kv, head (path kv) = Some name) set ↔
    ∃ kv rest, kv ∈ set ∧ path kv = name :: rest
               ∧ c = KeyValue (Some kv) name rest (info kv)).
  { intros c. rewrite list_elem_of_fmap. split.
    - intros (kv & -> & Hin). apply list_elem_of_filter in Hin as [Hh Hin].
      destruct (path kv) as [|first rest] eqn:E; [done|].
      simpl in Hh. injection Hh as ->.
      exists kv, rest. split_and!; [done..|].
      unfold consumed. by rewrite E.
    - intros (kv & rest & Hin & E & ->). exists kv. split.
      + unfold consumed. by rewrite E.
      + apply list_elem_of_filter. split; [by rewrite E | done]. }
  split_and!; [done | exact Hmem |].
  intros c kv [Hc Hnil] Hp.
  apply Hmem in Hc as (kv' & rest & _ & E & ->). simpl in Hp.
  injection Hp as ->. congruence.
Qed.

(** Descending from the root view of the sample container along
    [layers], [1], [weight] reaches the tensor of that name. *)
Example navigate_model :
  (s0 ← ToDataStruct (root_view model);
   layers ← Field s0 "layers";
   elements ← ToDataSlice layers;
   layer ← Index elements 1;
   s1 ← ToDataStruct layer;
   weight ← Field s1 "weight";
   leaf ← ValueFuture weight;
   mret (Name (info (kv leaf)), path (kv leaf)))
  = Ok ("layers.1.weight"%string, []).
Proof. reflexivity. Qed.

(** C10. Converting a view to struct shape returns, with no error and
    for every entry set, the struct-shaped view over the same entries. *)
Theorem ToDataStruct_total (w : walkerData) :
  ToDataStruct w = Ok (WalkerStruct (data_set w))
  ∧ ∃ s, ToDataStruct w = Ok s ∧ struct_set s = data_set w.
Proof. split; [reflexivity|]. eexists. split; reflexivity. Qed.

End Walker.

Section Leaf.

(** What [ValueFuture] returns, by the number of entries alone. *)
Lemma ValueFuture_cases (w : walkerData) :
  ValueFuture w
  = match data_set w with
    | [] => Err EmptyLeaf
    | [kv] => Ok (ArrayFuture kv)
    | _ :: _ :: _ => Err NotALeaf
    end.
Proof.
  unfold ValueFuture. destruct (data_set w) as [|kv [|kv' set]]; try done.
  simpl length.
  destruct (Z.eqb_spec (Z.of_nat (S (S (length set)))) 0); [lia|].
  destruct (Z.gtb_spec (Z.of_nat (S (S (length set)))) 1); [done|lia].
Qed.

(** C3, as amended. [ValueFuture] fails with [EmptyLeaf] on the empty
    set, fails with [AmbiguousLeaf] on a set of more than one entry, and
    succeeds on every set of exactly one entry, whatever segments that
    entry has left, producing the materializer for that entry. *)
Theorem ValueFuture_by_cardinality (w : walkerData) :
  ValueFuture w
  = match data_set w with
    | [] => Err EmptyLeaf
    | [kv] => Ok (ArrayFuture kv)
    | _ :: _ :: _ => Err NotALeaf
    end
  ∧ kind_of EmptyLeaf = EmptyLeafKind
  ∧ kind_of NotALeaf = AmbiguousLeaf
  ∧ ((∃ f, ValueFuture w = Ok f) ↔ length (data_set w) = 1%nat).
Proof.
  split_and!; [apply ValueFuture_cases | done | done |].
  rewrite ValueFuture_cases.
  destruct (data_set w) as [|kv [|kv' set]]; simpl; split;
    solve [ intros [f Hf]; discriminate Hf | discriminate | eauto ].
Qed.

(** C3, counterexample. A view of one entry that still has the segment
    ["weight"] to consume is materialized all the same: success does not
    require that no segment remains. *)
Lemma ValueFuture_ignores_remaining_path :
  ¬ (∀ w f, ValueFuture w = Ok f →
            ∃ kv, data_set w = [kv] ∧ path kv = []).
Proof.
  intros H.
  destruct (H (WalkerData [root_entry ["weight"%string] f32]) _ eq_refl)
    as (kv & Hset & Hpath).
  simpl in Hset. injection Hset as <-. discriminate Hpath.
Qed.

End Leaf.

Section Fields.

Implicit Types (set : list keyValue) (kv : keyValue) (m : gmap string bool).




(** What [Field] returns, in terms of the entries that match. *)
Lemma Field_cases (w : walkerStruct) (name : string) :
  Field w name
  = match filter (λ kv, head (path kv) = Some name) (struct_set w) with
    | [] => Err (NoFieldNamed name (keys (struct_set w)))
    | matching => Ok (WalkerData (consumed name <$> matching))
    end.
Proof.
  unfold Field, selectChildren. rewrite selectChildren_from_spec. simpl.
  by destruct (filter _ (struct_set w)).
Qed.




End Fields.

(** * Machine arithmetic *)

Section Arithmetic.

Lemma wrap_range z : Int.in_int (Int.wrap z).
Proof.
  unfold Int.in_int, Int.wrap, Int.minInt, Int.maxInt, Int.two63, Int.two64.
  pose proof (Z.mod_pos_bound (z + 2 ^ 63) (2 ^ 64) eq_refl). lia.
Qed.

Lemma wrap_in_int z : Int.in_int z → Int.wrap z = z.
Proof.
  unfold Int.in_int, Int.wrap, Int.minInt, Int.maxInt, Int.two63, Int.two64.
  intros H. rewrite Z.mod_small; lia.
Qed.

Lemma wrap_decompose z : ∃ k, Int.wrap z = z + k * Int.two64.
Proof.
  exists (- ((z + Int.two63) / Int.two64)). unfold Int.wrap.
  rewrite Z.mod_eq by done. lia.
Qed.

Lemma wrap_add_multiple z k : Int.wrap (z + k * Int.two64) = Int.wrap z.
Proof.
  unfold Int.wrap. f_equal.
  replace (z + k * Int.two64 + Int.two63) with (z + Int.two63 + k * Int.two64)
    by lia.
  apply Z_mod_plus_full.
Qed.

Lemma wrap_mul a b c :
  Int.wrap (Int.wrap (a * Int.wrap b) * c) = Int.wrap (a * (b * c)).
Proof.
  destruct (wrap_decompose b) as [k ->].
  destruct (wrap_decompose (a * (b + k * Int.two64))) as [k' ->].
  replace ((a * (b + k * Int.two64) + k' * Int.two64) * c)
    with (a * (b * c) + (a * k * c + k' * c) * Int.two64) by lia.
  apply wrap_add_multiple.
Qed.

(** The element count of the loop is the product of the dimensions,
    truncated to an [int]. *)
Lemma int_product_wrap dims : ∀ length,
  Int.in_int length →
  int_product length dims = Int.wrap (length * product dims).
Proof.
  unfold int_product.
  induction dims as [|d dims IH]; intros length Hlen; simpl.
  - by rewrite Z.mul_1_r, wrap_in_int.
  - rewrite IH by apply wrap_range.
    unfold Int.mul, Int.of_uint64. apply wrap_mul.
Qed.

Lemma fits_int_spec dims :
  fits_int dims = true →
  Forall (λ d, 0 <= d <= Int.maxInt) dims ∧ 0 <= product dims <= Int.maxInt.
Proof.
  unfold fits_int. intros [Hall Hprod%Z.leb_le]%andb_true_iff.
  assert (Hdims : Forall (λ d, 0 <= d <= Int.maxInt) dims).
  { apply Forall_forall. intros d Hd%list_elem_of_In.
    rewrite forallb_forall in Hall. apply Hall in Hd.
    apply andb_true_iff in Hd as [?%Z.leb_le ?%Z.leb_le]. lia. }
  split_and!; [done| |done].
  clear Hall Hprod. induction Hdims as [|d dims Hd _ IH]; simpl; lia.
Qed.

Lemma fits_int_exact dims :
  fits_int dims = true →
  (Int.of_uint64 <$> dims) = dims ∧ int_product 1 dims = product dims.
Proof.
  intros [Hdims Hprod]%fits_int_spec. split.
  - clear Hprod. induction Hdims as [|d dims Hd _ IH]; [done|].
    rewrite fmap_cons, IH. f_equal. apply wrap_in_int.
    unfold Int.in_int, Int.minInt, Int.maxInt, Int.two63 in *. lia.
  - rewrite int_product_wrap, Z.mul_1_l.
    + apply wrap_in_int.
      unfold Int.in_int, Int.minInt, Int.maxInt, Int.two63 in *. lia.
    + unfold Int.in_int, Int.minInt, Int.maxInt, Int.two63. lia.
Qed.

End Arithmetic.

(** * [strconv.Atoi] reads integer literals *)

Section Atoi.

Import strconv.

Lemma byte_of_range c : 0 <= byte_of c < 256.
Proof.
  unfold byte_of. pose proof (N_ascii_bounded c). lia.
Qed.

Lemma is_digit_decimal c : is_digit c = is_decimal_digit c.
Proof.
  unfold is_digit, is_decimal_digit. pose proof (byte_of_range c).
  destruct (Z.leb_spec 48 (byte_of c)), (Z.leb_spec (byte_of c) 57);
    cbn [andb]; apply Z.leb_le || apply Z.leb_gt;
    Z.div_mod_to_equations; lia.
Qed.

Lemma digit_decimal c :
  is_decimal_digit c = true →
  digit c = byte_of c - 48 ∧ 0 <= byte_of c - 48 <= 9.
Proof.
  unfold is_decimal_digit, digit. intros [H1 H2]%andb_true_iff.
  apply Z.leb_le in H1, H2. rewrite Z.mod_small; lia.
Qed.

Lemma digits_value_bounds s : ∀ acc v,
  0 <= acc → digits_value acc s = Some v →
  acc * 10 ^ Z.of_nat (String.length s) <= v
  < (acc + 1) * 10 ^ Z.of_nat (String.length s).
Proof.
  induction s as [|c s IH]; intros acc v Hacc; simpl digits_value.
  - intros [= ->]. simpl. lia.
  - destruct (is_decimal_digit c) eqn:Hc; [|done].
    destruct (digit_decimal c Hc) as [_ Hd]. intros Hv.
    apply IH in Hv; [|lia].
    replace (Z.of_nat (String.length (String c s)))
      with (Z.succ (Z.of_nat (String.length s))) by (simpl; lia).
    rewrite Z.pow_succ_r by lia.
    assert (0 < 10 ^ Z.of_nat (String.length s)) by (apply Z.pow_pos_nonneg; lia).
    nia.
Qed.

Lemma digits_value_ge s acc v :
  0 <= acc → digits_value acc s = Some v → acc <= v.
Proof.
  intros Hacc Hv. pose proof (digits_value_bounds s acc v Hacc Hv).
  assert (0 < 10 ^ Z.of_nat (String.length s)) by (apply Z.pow_pos_nonneg; lia).
  nia.
Qed.

Lemma fast_digits_value s : ∀ n, fast_digits n s = digits_value n s.
Proof.
  induction s as [|c s IH]; intros n; simpl; [done|].
  rewrite is_digit_decimal. destruct (is_decimal_digit c) eqn:Hc; simpl; [|done].
  destruct (digit_decimal c Hc) as [-> _]. rewrite IH. f_equal. lia.
Qed.

Ltac constants :=
  unfold cutoff, Int.maxInt, Int.minInt, Int.maxUint64, Int.two64, Int.two63 in *;
  change (2 ^ 64 - 1) with 18446744073709551615 in *;
  change (18446744073709551615 / 10 + 1) with 1844674407370955162 in *;
  change (2 ^ 64) with 18446744073709551616 in *;
  change (2 ^ 63) with 9223372036854775808 in *.

Ltac compare :=
  repeat match goal with
    | |- context [Z.leb ?a ?b] => destruct (Z.leb_spec a b)
    | |- context [Z.geb ?a ?b] => destruct (Z.geb_spec a b)
    | |- context [Z.gtb ?a ?b] => destruct (Z.gtb_spec a b)
    end;
  cbn [negb andb]; constants.

(** The loop of [ParseUint] against the value of the digits. *)
Lemma ParseUint_from_value s : ∀ n,
  0 <= n <= Int.maxUint64 →
  match digits_value n s with
  | None => uint_error (ParseUint_from n s)
  | Some v =>
      if v <=? Int.maxUint64 then ParseUint_from n s = (v, None)
      else ParseUint_from n s = (Int.maxUint64, Some ErrRange)
  end.
Proof.
  induction s as [|c s IH]; intros n Hn; simpl.
  - destruct (Z.leb_spec n Int.maxUint64); [done|lia].
  - rewrite is_digit_decimal. destruct (is_decimal_digit c) eqn:Hc; simpl;
      [|by left].
    destruct (digit_decimal c Hc) as [-> Hd].
    unfold uint_error in *. constants.
    destruct (Z.geb_spec n 1844674407370955162) as [Hcut|Hcut].
    { destruct (digits_value _ s) as [v|] eqn:Hv; [|by right].
      apply digits_value_ge in Hv; [|lia].
      destruct (Z.leb_spec v 18446744073709551615); [lia|done]. }
    rewrite (Z.mod_small (n * 10)) by lia.
    destruct (Z.lt_ge_cases (n * 10 + (byte_of c - 48)) 18446744073709551616)
      as [Hfit|Hover].
    + rewrite (Z.mod_small (n * 10 + _)) by lia.
      destruct (Z.ltb_spec (n * 10 + (byte_of c - 48)) (n * 10)); [lia|].
      destruct (Z.gtb_spec (n * 10 + (byte_of c - 48)) 18446744073709551615);
        [lia|]. simpl.
      replace (10 * n + (byte_of c - 48)) with (n * 10 + (byte_of c - 48)) by lia.
      apply IH. lia.
    + assert ((n * 10 + (byte_of c - 48)) mod 18446744073709551616
              = n * 10 + (byte_of c - 48) - 18446744073709551616) as ->.
      { symmetry. apply Z.mod_unique with 1; lia. }
      destruct (Z.ltb_spec (n * 10 + (byte_of c - 48) - 18446744073709551616)
                  (n * 10)); [|lia]. simpl.
      destruct (digits_value _ s) as [v|] eqn:Hv; [|by right].
      apply digits_value_ge in Hv; [|lia].
      destruct (Z.leb_spec v 18446744073709551615); [lia|done].
Qed.

Lemma ParseUint_literal s :
  match unsigned_literal s with
  | None => uint_error (ParseUint s)
  | Some v =>
      0 <= v ∧
      if v <=? Int.maxUint64 then ParseUint s = (v, None)
      else ParseUint s = (Int.maxUint64, Some ErrRange)
  end.
Proof.
  destruct s as [|c s]; [by left|].
  unfold unsigned_literal, ParseUint.
  pose proof (ParseUint_from_value (String c s) 0) as H.
  destruct (digits_value 0 (String c s)) as [v|] eqn:Hv.
  - split; [by eapply digits_value_ge|]. apply H. constants. lia.
  - apply H. constants. lia.
Qed.

Lemma signed_literal_value (neg : bool) body :
  match unsigned_literal body with
  | None => ∃ v e, signed neg (ParseUint body) = (v, Some e)
  | Some u =>
      let v := if neg then - u else u in
      if (Int.minInt <=? v) && (v <=? Int.maxInt)
      then signed neg (ParseUint body) = (v, None)
      else ∃ w e, signed neg (ParseUint body) = (w, Some e)
  end.
Proof.
  pose proof (ParseUint_literal body) as H.
  destruct (unsigned_literal body) as [u|].
  - destruct H as [Hu H]. cbv zeta.
    destruct (Z.leb_spec u Int.maxUint64) as [Hle|Hgt]; rewrite H;
      unfold signed; destruct neg; cbn [negb andb]; compare;
      try (exfalso; lia); eauto; f_equal.
    + destruct (decide (u = 9223372036854775808)) as [->|]; [done|].
      rewrite (wrap_in_int u) by (unfold Int.in_int; constants; lia).
      apply wrap_in_int. unfold Int.in_int. constants. lia.
    + apply wrap_in_int. unfold Int.in_int. constants. lia.
  - destruct H as [-> | ->]; unfold signed; [by eauto|].
    constants. destruct neg; cbn; eauto.
Qed.

Lemma ParseInt_signed c rest :
  ParseInt (String c rest)
  = signed (Ascii.eqb c "-")
      (ParseUint (if Ascii.eqb c "+" then rest
                  else if Ascii.eqb c "-" then rest else String c rest)).
Proof. reflexivity. Qed.

Lemma ParseInt_literal s :
  match int_literal s with
  | Some v => ParseInt s = (v, None)
  | None => ∃ v e, ParseInt s = (v, Some e)
  end.
Proof.
  destruct s as [|c rest]; [simpl; eauto|].
  rewrite ParseInt_signed. unfold int_literal, signed_literal.
  destruct (Ascii.eqb_spec c "-") as [->|Hminus].
  - change (Ascii.eqb "-" "+") with false. cbv iota.
    pose proof (signed_literal_value true rest) as H.
    destruct (unsigned_literal rest) as [u|]; simpl in *; [|done].
    by destruct (_ && _).
  - destruct (Ascii.eqb c "+").
    + pose proof (signed_literal_value false rest) as H.
      destruct (unsigned_literal rest) as [u|]; simpl in *; [|done].
      by destruct (_ && _).
    + pose proof (signed_literal_value false (String c rest)) as H.
      destruct (unsigned_literal (String c rest)) as [u|]; simpl in *; [|done].
      by destruct (_ && _).
Qed.

Lemma short_literal_in_int s u :
  Z.of_nat (String.length s) < 19 → digits_value 0 s = Some u →
  0 <= u < 10 ^ 18.
Proof.
  intros Hlen Hu. apply digits_value_bounds in Hu; [|lia].
  assert (10 ^ Z.of_nat (String.length s) <= 10 ^ 18)
    by (apply Z.pow_le_mono_r; lia).
  lia.
Qed.

Lemma in_int_true v :
  - 10 ^ 18 < v < 10 ^ 18 → (Int.minInt <=? v) && (v <=? Int.maxInt) = true.
Proof.
  intros H. apply andb_true_iff. split; apply Z.leb_le; constants; lia.
Qed.

(** [Atoi] accepts exactly the integer literals, with their value. *)
Lemma Atoi_literal s :
  match int_literal s with
  | Some v => Atoi s = (v, None)
  | None => ∃ v e, Atoi s = (v, Some e)
  end.
Proof.
  unfold Atoi. cbv zeta.
  destruct ((0 <? Z.of_nat (String.length s))
            && (Z.of_nat (String.length s) <? 19)) eqn:Hlen;
    [|apply ParseInt_literal].
  apply andb_true_iff in Hlen as [_ Hlen%Z.ltb_lt].
  destruct s as [|c rest]; [simpl; eauto|].
  unfold int_literal, signed_literal.
  assert (Hrest : Z.of_nat (String.length rest) < 19) by (simpl in Hlen; lia).
  destruct (Ascii.eqb_spec c "-") as [->|Hminus].
  - change (Ascii.eqb "-" "+") with false. cbn [orb andb].
    destruct rest as [|c' rest']; [simpl; eauto|].
    change (Z.of_nat (String.length (String c' rest')) <? 1) with
      (Z.of_nat (S (String.length rest')) <? 1).
    destruct (Z.ltb_spec (Z.of_nat (S (String.length rest'))) 1); [lia|].
    rewrite fast_digits_value. unfold unsigned_literal.
    destruct (digits_value 0 (String c' rest')) as [u|] eqn:Hu; [|simpl; eauto].
    apply short_literal_in_int in Hu; [|done].
    cbn [fmap option_fmap option_map]. rewrite in_int_true by lia. done.
  - destruct (Ascii.eqb_spec c "+") as [->|Hplus]; cbn [orb andb].
    + destruct rest as [|c' rest']; [simpl; eauto|].
      change (Z.of_nat (String.length (String c' rest')) <? 1) with
        (Z.of_nat (S (String.length rest')) <? 1).
      destruct (Z.ltb_spec (Z.of_nat (S (String.length rest'))) 1); [lia|].
      rewrite fast_digits_value. unfold unsigned_literal.
      destruct (digits_value 0 (String c' rest')) as [u|] eqn:Hu; [|simpl; eauto].
      apply short_literal_in_int in Hu; [|done].
      rewrite in_int_true by lia. done.
    + rewrite fast_digits_value. unfold unsigned_literal.
      destruct (digits_value 0 (String c rest)) as [u|] eqn:Hu; [|simpl; eauto].
      apply short_literal_in_int in Hu; [|done].
      rewrite in_int_true by lia. done.
Qed.

Lemma Atoi_accepts s :
  (Atoi s).2 = None ↔ is_Some (int_literal s).
Proof.
  pose proof (Atoi_literal s) as H.
  destruct (int_literal s) as [v|].
  - rewrite H. split; eauto.
  - destruct H as (v & e & ->). split; [done|]. by intros [? ?].
Qed.

Lemma Atoi_value s v : int_literal s = Some v → (Atoi s).1 = v.
Proof.
  intros Hv. pose proof (Atoi_literal s) as H. rewrite Hv in H. by rewrite H.
Qed.

End Atoi.

(** * Properties of sequence views *)

Section Sequence.

Implicit Types (set : list keyValue) (kv : keyValue)
  (sl : gmap Z (list keyValue)) (i : Z).

Lemma well_indexed_literal kv :
  well_indexed kv = true ↔ is_Some (literal_index kv).
Proof.
  unfold well_indexed, literal_index. destruct (path kv) as [|first rest].
  - split; [done|]. by intros [? ?].
  - rewrite bool_decide_eq_true. apply Atoi_accepts.
Qed.

Lemma index_of_literal kv i : literal_index kv = Some i → index_of kv = i.
Proof.
  unfold literal_index, index_of, first_or_empty.
  destruct (path kv) as [|first rest]; [done|]. apply Atoi_value.
Qed.

Lemma literal_index_eq kv i :
  well_indexed kv = true → literal_index kv = Some i ↔ index_of kv = i.
Proof.
  intros [j Hj]%well_indexed_literal. split; [apply index_of_literal|].
  apply index_of_literal in Hj as Hj'. congruence.
Qed.

Lemma elements_at_cons i kv set :
  elements_at i (kv :: set)
  = if decide (index_of kv = i)
    then consumed (first_or_empty kv) kv :: elements_at i set
    else elements_at i set.
Proof.
  unfold elements_at. rewrite filter_cons. by case_decide.
Qed.

Lemma elements_at_nil i set :
  elements_at i set = [] ↔ i ∉ index_of <$> set.
Proof.
  induction set as [|kv set IH].
  { split; [intros _; apply not_elem_of_nil | done]. }
  rewrite elements_at_cons, fmap_cons, not_elem_of_cons.
  case_decide as Hi.
  - split; [done|]. intros [Hne _]. by destruct Hne.
  - rewrite IH. split; [by split | by intros [_ ?]].
Qed.

(** The loop of [ToDataSlice] on entries that all carry an index. *)
Lemma ToDataSlice_from_ok set : ∀ sl,
  Forall (λ kv, well_indexed kv = true) set →
  ∃ sl', ToDataSlice_from sl set = Ok (WalkerSlice sl')
         ∧ ∀ i, sl' !! i
                = if decide (i ∈ index_of <$> set)
                  then Some (default [] (sl !! i) ++ elements_at i set)
                  else sl !! i.
Proof.
  induction set as [|kv set IH]; intros sl Hall; cbn [ToDataSlice_from].
  - exists sl. split; [done|]. intros i.
    rewrite decide_False; [done | apply not_elem_of_nil].
  - apply Forall_cons in Hall as [Hkv Hall]. rewrite fmap_cons.
    unfold well_indexed in Hkv.
    destruct (path kv) as [|first rest] eqn:Hpath; [done|].
    apply bool_decide_eq_true in Hkv.
    destruct (strconv.Atoi first) as [i0 err] eqn:Hatoi. simpl in Hkv; subst err.
    rewrite (child_nonempty _ _ _ _ Hpath).
    change (Ok (consumed first kv) ≫= _) with
      (ToDataSlice_from
         (<[i0 := default [] (sl !! i0) ++ [consumed first kv]]> sl) set).
    destruct (IH (<[i0 := default [] (sl !! i0) ++ [consumed first kv]]> sl) Hall)
      as (sl' & -> & Hlookup).
    exists sl'. split; [done|]. intros i. rewrite Hlookup.
    assert (Hidx : index_of kv = i0)
      by (unfold index_of, first_or_empty; by rewrite Hpath, Hatoi).
    assert (Hfirst : first_or_empty kv = first)
      by (unfold first_or_empty; by rewrite Hpath).
    rewrite elements_at_cons, Hidx, Hfirst.
    destruct (decide (i = i0)) as [->|Hne].
    + rewrite lookup_insert_eq. unfold default at 1 3. cbn [from_option id].
      destruct (decide (i0 = i0)) as [_|?]; [|done].
      destruct (decide (i0 ∈ i0 :: _)) as [_|Hn]; [|destruct Hn; left].
      destruct (decide (i0 ∈ index_of <$> set)) as [Hin|Hin].
      * by rewrite <- app_assoc.
      * apply elements_at_nil in Hin. by rewrite Hin.
    + rewrite lookup_insert_ne by done.
      destruct (decide (i0 = i)) as [?|_]; [done|].
      destruct (decide (i ∈ index_of <$> set)) as [Hin|Hin];
        destruct (decide (i ∈ i0 :: _)) as [Hin'|Hin']; try done.
      * destruct Hin'. by right.
      * apply elem_of_cons in Hin' as [?|?]; done.
Qed.

(** The loop of [ToDataSlice] when some entry carries no index. *)
Lemma ToDataSlice_from_err set : ∀ sl,
  Exists (λ kv, well_indexed kv = false) set →
  ∃ e, ToDataSlice_from sl set = Err e ∧ kind_of e = MalformedIndex.
Proof.
  induction set as [|kv set IH]; intros sl Hex; [by apply Exists_nil in Hex|].
  simpl. unfold well_indexed in *.
  destruct (path kv) as [|first rest] eqn:Hpath; [by eauto|].
  destruct (strconv.Atoi first) as [i0 [err|]] eqn:Hatoi; [by eauto|].
  rewrite (child_nonempty _ _ _ _ Hpath).
  apply Exists_cons in Hex as [Hkv|Hex]; [|by apply IH].
  rewrite Hpath, Hatoi in Hkv. by apply bool_decide_eq_false in Hkv.
Qed.

Lemma ToDataSlice_cases (w : walkerData) :
  match ToDataSlice w with
  | Ok s =>
      Forall (λ kv, well_indexed kv = true) (data_set w)
      ∧ ∀ i, slice_set s !! i
             = if decide (i ∈ index_of <$> data_set w)
               then Some (elements_at i (data_set w))
               else None
  | Err e =>
      kind_of e = MalformedIndex
      ∧ Exists (λ kv, well_indexed kv = false) (data_set w)
  | Panic => False
  end.
Proof.
  unfold ToDataSlice.
  destruct (Forall_Exists_dec (λ kv, well_indexed kv = true)
              (λ kv, well_indexed kv = false)
              (λ kv, match well_indexed kv as b
                           return {b = true} + {b = false} with
                     | true => left eq_refl
                     | false => right eq_refl
                     end) (data_set w)) as [Hall|Hex].
  - destruct (ToDataSlice_from_ok _ ∅ Hall) as (sl' & -> & Hlookup).
    split; [done|]. intros i. simpl. rewrite Hlookup, lookup_empty.
    by case_decide.
  - destruct (ToDataSlice_from_err _ ∅ Hex) as (e & -> & Hkind). done.
Qed.

Lemma filter_literal_index i set :
  Forall (λ kv, well_indexed kv = true) set →
  filter (λ kv, literal_index kv = Some i) set
  = filter (λ kv, index_of kv = i) set.
Proof.
  induction 1 as [|kv set Hkv _ IH]; [done|].
  rewrite !filter_cons, IH.
  destruct (decide (literal_index kv = Some i)) as [Hl|Hl],
           (decide (index_of kv = i)) as [Hi|Hi]; try done;
    apply (literal_index_eq kv i) in Hkv; tauto.
Qed.

Lemma not_well_indexed kv :
  well_indexed kv = false ↔
  path kv = [] ∨ ∃ first rest, path kv = first :: rest
                               ∧ int_literal first = None.
Proof.
  rewrite <- not_true_iff_false, well_indexed_literal.
  unfold literal_index. destruct (path kv) as [|first rest].
  - split; [by left|]. by intros _ [? ?].
  - rewrite <- eq_None_not_Some. split.
    + intros H. right. by exists first, rest.
    + intros [?|(f & r & [= <- <-] & H)]; done.
Qed.

(** C4, as amended. Converting a view to a sequence never panics. It
    fails, with [MalformedIndex], exactly when some entry has no segment
    left or has a next segment that is not a base-10 integer literal (an
    optional sign, then decimal digits, within [int]); a negative literal
    is accepted. Otherwise it maps each integer read to the entries of
    that index, in their order and each with its segment consumed, and
    maps no other integer. *)
Theorem ToDataSlice_outcome (w : walkerData) :
  match ToDataSlice w with
  | Ok s =>
      Forall (λ kv, ∃ first rest i, path kv = first :: rest
                                    ∧ int_literal first = Some i) (data_set w)
      ∧ ∀ i, slice_set s !! i
             = match filter (λ kv, literal_index kv = Some i) (data_set w) with
               | [] => None
               | entries =>
                   Some ((λ kv, consumed (first_or_empty kv) kv) <$> entries)
               end
  | Err e =>
      kind_of e = MalformedIndex
      ∧ Exists (λ kv, path kv = []
                      ∨ ∃ first rest, path kv = first :: rest
                                      ∧ int_literal first = None) (data_set w)
  | Panic => False
  end.
Proof.
  pose proof (ToDataSlice_cases w) as H.
  destruct (ToDataSlice w) as [s|e|]; [|..|done].
  - destruct H as [Hall Hlookup]. split.
    + eapply Forall_impl; [exact Hall|]. intros kv Hkv. simpl in Hkv.
      apply well_indexed_literal in Hkv as [i Hi]. unfold literal_index in Hi.
      destruct (path kv) as [|first rest]; [done|]. by exists first, rest, i.
    + intros i. rewrite Hlookup, (filter_literal_index i _ Hall).
      case_decide as Hin.
      * assert (Hne : elements_at i (data_set w) ≠ [])
          by (intros Hnil%elements_at_nil; done).
        unfold elements_at in *.
        by destruct (filter _ (data_set w)) as [|kv l].
      * apply elements_at_nil in Hin. unfold elements_at in Hin.
        by apply fmap_nil_inv in Hin as ->.
  - destruct H as [Hkind Hex]. split; [done|].
    eapply Exists_impl; [exact Hex|]. intros kv. apply not_well_indexed.
Qed.

(** C4, counterexample. A view whose only entry has the next segment
    ["-1"] is converted without error, and the entry becomes the element
    of index -1: a next segment that is not a non-negative integer does
    not make the conversion fail. *)
Lemma ToDataSlice_accepts_negative_index :
  ¬ (∀ w : walkerData,
       (∃ kv, kv ∈ data_set w
              ∧ ¬ ∃ i, 0 <= i ∧ literal_index kv = Some i) →
       ∃ e, ToDataSlice w = Err e ∧ kind_of e = MalformedIndex).
Proof.
  intros H.
  destruct (H (WalkerData [root_entry ["-1"; "weight"] f32]))
    as (e & He & _).
  - exists (root_entry ["-1"; "weight"] f32). split; [left|].
    intros (i & Hi & Hlit). vm_compute in Hlit. injection Hlit as <-. lia.
  - vm_compute in He. discriminate He.
Qed.

Example negative_index_element :
  ∃ s, ToDataSlice (WalkerData [root_entry ["-1"; "weight"] f32]) = Ok s
       ∧ Index s (-1)
         = Ok (WalkerData [consumed "-1" (root_entry ["-1"; "weight"] f32)]).
Proof. eexists. split; reflexivity. Qed.

Lemma omap_literal_index set :
  Forall (λ kv, well_indexed kv = true) set →
  omap literal_index set = index_of <$> set.
Proof.
  induction 1 as [|kv set Hkv _ IH]; [done|].
  apply well_indexed_literal in Hkv as [i Hi]. cbn [omap list_omap].
  fold (omap literal_index set). rewrite Hi, fmap_cons, IH.
  by rewrite (index_of_literal _ _ Hi).
Qed.

Lemma size_of_lookup sl (indices : list Z) (f : Z → list keyValue) :
  (∀ i, sl !! i = if decide (i ∈ indices) then Some (f i) else None) →
  size sl = length (remove_dups indices).
Proof.
  intros Hlookup.
  assert (Hdom : dom sl = (list_to_set (remove_dups indices) : gset Z)).
  { apply set_eq. intros i.
    rewrite elem_of_dom, Hlookup, elem_of_list_to_set, elem_of_remove_dups.
    case_decide; split; solve [done | by intros [? ?]]. }
  rewrite <- (size_dom (D := gset Z)), Hdom.
  apply size_list_to_set, NoDup_remove_dups.
Qed.

(** C7. On a sequence view that was built, [Len] is the number of
    distinct indices read in the entries (whatever the largest of them
    is, and whether or not they are contiguous), and [Index] returns the
    view of the entries of index [i], each with its segment consumed, when
    some entry has that index, and fails with [NoSuchIndex] when none
    has. *)
Theorem sequence_Len_Index (w : walkerData) (s : walkerSlice) :
  ToDataSlice w = Ok s →
  Len s = Z.of_nat (length (remove_dups (omap literal_index (data_set w))))
  ∧ ∀ i,
      Index s i
      = (if decide (i ∈ omap literal_index (data_set w))
         then Ok (WalkerData
                    ((λ kv, consumed (first_or_empty kv) kv)
                       <$> filter (λ kv, literal_index kv = Some i)
                                  (data_set w)))
         else Err (NoElementAtIndex i))
      ∧ kind_of (NoElementAtIndex i) = NoSuchIndex.
Proof.
  intros Hok. pose proof (ToDataSlice_cases w) as H. rewrite Hok in H.
  destruct H as [Hall Hlookup]. rewrite (omap_literal_index _ Hall). split.
  - unfold Len. f_equal.
    exact (size_of_lookup _ _ (λ i, elements_at i (data_set w)) Hlookup).
  - intros i. split; [|done]. unfold Index.
    rewrite Hlookup, (filter_literal_index i _ Hall).
    by case_decide.
Qed.

Lemma sequence_Len_Index_witness :
  Len sparse_slice
  = Z.of_nat (length (remove_dups (omap literal_index (data_set sparse_view))))
  ∧ ∀ i,
      Index sparse_slice i
      = (if decide (i ∈ omap literal_index (data_set sparse_view))
         then Ok (WalkerData
                    ((λ kv, consumed (first_or_empty kv) kv)
                       <$> filter (λ kv, literal_index kv = Some i)
                                  (data_set sparse_view)))
         else Err (NoElementAtIndex i))
      ∧ kind_of (NoElementAtIndex i) = NoSuchIndex.
Proof.
  apply (sequence_Len_Index sparse_view sparse_slice). vm_compute. reflexivity.
Defined.

(** The length of the sample view is 2 although its largest index is 7. *)
Example sparse_Len : Len sparse_slice = 2.
Proof. reflexivity. Qed.

End Sequence.

(** * Properties of the leaf materializer *)

Section Materializer.

Implicit Types (t : TensorInfo) (r : reader) (dims : list Z)
  (buf : list Byte.byte).

Lemma drop_insert_here {A} (l : list A) (k : nat) (x : A) :
  (k < length l)%nat → drop k (<[k := x]> l) = x :: drop (S k) l.
Proof.
  intros Hk. rewrite drop_insert_ge by done. rewrite Nat.sub_diag.
  destruct (lookup_lt_is_Some_2 l k Hk) as [y Hy].
  by rewrite (drop_S _ _ _ Hy).
Qed.

(** The loop fills the axes from the last position down. *)
Lemma axes_loop_spec dims : ∀ (n i : nat) (axes : list Z) (len : Z),
  n = (i + length dims)%nat → length axes = n →
  axes_loop n i dims axes len
  = (reverse (Int.of_uint64 <$> dims) ++ drop (length dims) axes,
     int_product len dims).
Proof.
  induction dims as [|d dims IH]; intros n i axes len Hn Hlen;
    simpl in Hn |- *.
  - by rewrite drop_0.
  - rewrite IH by (rewrite ?length_insert; lia).
    rewrite reverse_cons, <- app_assoc. do 2 f_equal.
    replace (n - 1 - i)%nat with (length dims) by lia.
    apply drop_insert_here. lia.
Qed.

Lemma axes_loop_result dims :
  axes_loop (length dims) 0 dims (replicate (length dims) 0) 1
  = (reverse (Int.of_uint64 <$> dims), int_product 1 dims).
Proof.
  rewrite axes_loop_spec by (rewrite ?length_replicate; lia).
  by rewrite drop_replicate, Nat.sub_diag, app_nil_r.
Qed.

Lemma unsafe_Slice_spec buf : ∀ (n : nat) (flat : list float32),
  unsafe_Slice buf n = Some flat →
  length flat = n ∧ bytes_of flat = take (4 * n) buf
  ∧ (4 * n ≤ length buf)%nat.
Proof.
  intros n. revert buf.
  induction n as [|n IH]; intros buf flat; simpl.
  - intros [= <-]. split_and!; [done|done|lia].
  - destruct buf as [|a [|b [|c [|d buf]]]]; try done.
    destruct (unsafe_Slice buf n) as [flat'|] eqn:Hflat; [|done].
    simpl. intros [= <-]. destruct (IH _ _ Hflat) as (Hlen & Hbytes & Hfit).
    split_and!.
    + simpl. by rewrite Hlen.
    + replace (n + S (n + S (n + S (n + 0))))%nat with (3 + 4 * n)%nat by lia.
      unfold bytes_of in *. cbn. by rewrite Hbytes.
    + simpl. lia.
Qed.

Lemma unsafe_Slice_in_bounds buf : ∀ n : nat,
  (4 * n ≤ length buf)%nat → is_Some (unsafe_Slice buf n).
Proof.
  intros n. revert buf. induction n as [|n IH]; intros buf Hfit; simpl; [done|].
  destruct buf as [|a [|b [|c [|d buf]]]]; simpl in Hfit; try lia.
  destruct (IH buf) as [flat ->]; [lia|]. done.
Qed.

(** What [io.CopyN] returns, by the bytes the stream has. *)
Lemma io_CopyN_cases (src : stream) (n : Z) :
  io_CopyN src n
  = if n <? 0 then ([], 0, None)
    else if Z.of_nat (length (content src)) <? n
         then (content src, Z.of_nat (length (content src)),
               Some (default EOF (ending src)))
         else (take (Z.to_nat n) (content src), n, None).
Proof.
  unfold io_CopyN.
  destruct (Z.ltb_spec n 0) as [Hneg|Hpos].
  - replace (Z.to_nat n) with 0%nat by lia. rewrite take_0.
    change (Z.of_nat (length [])) with 0.
    destruct (Z.eqb_spec 0 n); [lia|].
    destruct (Z.ltb_spec 0 n); [lia|]. done.
  - destruct (Z.ltb_spec (Z.of_nat (length (content src))) n) as [Hshort|Hlong].
    + rewrite take_ge by lia.
      destruct (Z.eqb_spec (Z.of_nat (length (content src))) n); [lia|].
      destruct (Z.ltb_spec (Z.of_nat (length (content src))) n); [|lia].
      by destruct (ending src).
    + rewrite length_take_le by lia. rewrite Z2Nat.id by lia.
      by rewrite Z.eqb_refl.
Qed.

(** The outcome of the body of [Value], by cases on the record. *)
Lemma Value_body_cases t r :
  let size := Size t in
  let stored := content (Reader_ r) in
  let axes := reverse (Int.of_uint64 <$> Dimensions t) in
  let count := int_product 1 (Dimensions t) in
  Value_body t r
  = if size <? 0 then Err (NotEnoughBytes 0 size)
    else if Z.of_nat (length stored) <? size
         then Err (default EOF (ending (Reader_ r)))
    else if negb (count =? Int.div size float32ByteSize)
         then Err (AxisSizeMismatch axes count size float32ByteSize
                     (Int.div size float32ByteSize))
    else if size =? 0 then Panic
    else match unsafe_Slice (take (Z.to_nat size) stored) (Z.to_nat count) with
         | Some flat => Ok (ArrayFloat32 flat axes)
         | None => Panic
         end.
Proof.
  intros size stored axes count. unfold Value_body.
  rewrite io_CopyN_cases, axes_loop_result.
  fold size stored axes count.
  destruct (Z.ltb_spec size 0) as [Hneg|Hpos].
  { destruct (Z.eqb_spec 0 size); [lia|done]. }
  destruct (Z.ltb_spec (Z.of_nat (length stored)) size) as [Hshort|Hlong]; [done|].
  rewrite Z.eqb_refl. cbn [negb].
  destruct (negb (count =? Int.div size float32ByteSize)) eqn:Hcount; [done|].
  apply negb_false_iff, Z.eqb_eq in Hcount.
  destruct (Z.eqb_spec size 0) as [Hzero|Hnonzero].
  { rewrite Hzero. by rewrite take_0. }
  destruct (take (Z.to_nat size) stored) as [|b buf] eqn:Hbuf.
  { apply (f_equal length) in Hbuf. rewrite length_take_le in Hbuf by lia.
    simpl in Hbuf. lia. }
  destruct (Z.ltb_spec count 0) as [Hcneg|_]; [|done].
  unfold Int.div, float32ByteSize in Hcount.
  pose proof (Z.quot_pos size 4). lia.
Qed.

(** The slice handed to [ArrayFloat32] never extends past the buffer. *)
Lemma Value_in_bounds t r :
  0 <= Size t <= Z.of_nat (length (content (Reader_ r))) →
  int_product 1 (Dimensions t) = Int.div (Size t) float32ByteSize →
  is_Some (unsafe_Slice (take (Z.to_nat (Size t)) (content (Reader_ r)))
             (Z.to_nat (int_product 1 (Dimensions t)))).
Proof.
  intros Hsize ->. apply unsafe_Slice_in_bounds.
  rewrite length_take_le by lia.
  unfold Int.div, float32ByteSize.
  pose proof (Z.quot_pos (Size t) 4).
  pose proof (Z.mul_quot_le (Size t) 4). 
  apply Nat2Z.inj_le. rewrite Nat2Z.inj_mul, !Z2Nat.id; lia.
Qed.

(** [Value] with the lock free: [Reader] takes the lock, the body runs,
    and the lock is free again on return. *)
Lemma Value_unlocked (pr : arrayFuture) :
  Value pr false
  = Returns match Open (info (kv pr)) with
            | inl err => Err err
            | inr s => Value_body (info (kv pr)) {| Reader_ := s |}
            end false.
Proof.
  unfold Value, Reader, Close. cbn.
  by destruct (Open (info (kv pr))).
Qed.

Lemma Value_locked (pr : arrayFuture) : Value pr true = Waits.
Proof. reflexivity. Qed.

(** A materialization that succeeds: the array it returns. *)
Lemma Value_success (pr : arrayFuture) (arr : ArrayBridge) (l l' : bool) :
  Value pr l = Returns (Ok arr) l' →
  let t := info (kv pr) in
  axes arr = reverse (Int.of_uint64 <$> Dimensions t)
  ∧ Z.of_nat (length (flat arr)) = Int.wrap (product (Dimensions t))
  ∧ Int.wrap (product (Dimensions t)) = Int.div (Size t) float32ByteSize
  ∧ ∃ s, Open t = inr s
         ∧ 0 < Size t <= Z.of_nat (length (content s))
         ∧ bytes_of (flat arr) = take (4 * length (flat arr)) (content s).
Proof.
  destruct l; [by rewrite Value_locked|]. rewrite Value_unlocked.
  intros [= Hbody _]. intros t. fold t in Hbody.
  destruct (Open t) as [err|s] eqn:Hopen; [done|].
  rewrite Value_body_cases in Hbody. cbv zeta in Hbody. simpl Reader_ in Hbody.
  destruct (Z.ltb_spec (Size t) 0); [done|].
  destruct (Z.ltb_spec (Z.of_nat (length (content s))) (Size t)); [done|].
  destruct (negb _) eqn:Hcount in Hbody; [done|].
  apply negb_false_iff, Z.eqb_eq in Hcount.
  destruct (Z.eqb_spec (Size t) 0); [done|].
  destruct (unsafe_Slice _ _) as [fl|] eqn:Hslice; [|done].
  injection Hbody as <-. simpl.
  apply unsafe_Slice_spec in Hslice as (Hlen & Hbytes & Hfit).
  rewrite int_product_wrap, Z.mul_1_l in Hcount, Hlen, Hbytes, Hfit
    by (unfold Int.in_int, Int.minInt, Int.maxInt, Int.two63; lia).
  assert (0 <= Int.wrap (product (Dimensions t))).
  { rewrite Hcount. apply Z.quot_pos; unfold float32ByteSize; lia. }
  split_and!; [done | lia | done |].
  exists s. split_and!; [done | lia | lia |].
  rewrite Hbytes, Hlen, take_take. f_equal.
  rewrite length_take_le in Hfit by lia. lia.
Qed.

(** With no overflow, the array has the reversed dimensions as axes and
    the product of the dimensions as element count. *)
Lemma Value_success_exact (pr : arrayFuture) (arr : ArrayBridge) (l l' : bool) :
  Value pr l = Returns (Ok arr) l' →
  fits_int (Dimensions (info (kv pr))) = true →
  axes arr = reverse (Dimensions (info (kv pr)))
  ∧ Z.of_nat (length (flat arr)) = product (Dimensions (info (kv pr))).
Proof.
  intros Hok Hfits. destruct (Value_success _ _ _ _ Hok) as (Haxes & Hlen & _).
  pose proof (fits_int_exact _ Hfits) as [Hdims Hprod].
  rewrite Hdims in Haxes. split; [done|].
  rewrite Hlen. apply wrap_in_int.
  apply fits_int_spec in Hfits as [_ Hrange].
  unfold Int.in_int, Int.minInt, Int.maxInt, Int.two63 in *. lia.
Qed.

(** C1, on the failing record. The dimensions 274177 and 67280421310721
    are valid [uint64] values whose product is [2^64 + 1]; with four bytes
    of data the size check passes on the wrapped count 1, and [Value]
    returns an array with the reversed axes and a single element, not the
    product of the dimensions. *)
Theorem Value_overflowing_dimensions :
  well_typed overflowing
  ∧ product (Dimensions overflowing) = 2 ^ 64 + 1
  ∧ ∃ arr,
      Value (ArrayFuture (leaf_of overflowing)) false
      = Returns (Ok arr) false
      ∧ axes arr = [67280421310721; 274177]
      ∧ flat arr = [Float32 Byte.x00 Byte.x00 Byte.x00 Byte.x00]
      ∧ Z.of_nat (length (flat arr)) ≠ product (Dimensions overflowing).
Proof.
  split_and!.
  - split; [by vm_compute | repeat constructor; by vm_compute].
  - by vm_compute.
  - eexists. split_and!; [by vm_compute | done | done | by vm_compute].
Qed.

(** C2, as amended. For a record whose dimensions and their product fit
    in an [int], whose stream opens and holds the declared number of
    bytes: the materialization succeeds only if the product of the
    dimensions equals the byte size divided by 4 with the remainder
    dropped (so the byte size is between 4 times the product and 3 more);
    it fails with [SizeMismatch], reporting the reversed dimensions, the
    product, the byte size, the width 4 and the quotient, whenever the
    product differs from that quotient; and a record of no byte at all
    whose product is 0 ends in an index-out-of-range panic. *)
Theorem Value_size_validation (pr : arrayFuture) (s : stream) :
  let t := info (kv pr) in
  let dims := Dimensions t in
  fits_int dims = true →
  Open t = inr s →
  0 <= Size t <= Z.of_nat (length (content s)) →
  match Value pr false with
  | Returns (Ok arr) _ =>
      product dims = Z.quot (Size t) 4
      ∧ 4 * product dims <= Size t <= 4 * product dims + 3
  | Returns (Err e) _ =>
      product dims ≠ Z.quot (Size t) 4
      ∧ e = AxisSizeMismatch (reverse dims) (product dims) (Size t) 4
              (Z.quot (Size t) 4)
      ∧ kind_of e = SizeMismatch
  | Returns Panic _ => product dims = 0 ∧ Size t = 0
  | Waits | Fatal => False
  end.
Proof.
  intros t dims Hfits Hopen Hsize.
  rewrite Value_unlocked. fold t. rewrite Hopen, Value_body_cases.
  cbv zeta. simpl Reader_. fold dims.
  destruct (fits_int_exact _ Hfits) as [Hdims Hprod].
  rewrite Hdims, Hprod. unfold Int.div, float32ByteSize.
  destruct (Z.ltb_spec (Size t) 0); [lia|].
  destruct (Z.ltb_spec (Z.of_nat (length (content s))) (Size t)); [lia|].
  pose proof (Z.quot_rem' (Size t) 4) as Hdiv.
  pose proof (Z.rem_bound_pos (Size t) 4) as Hrem.
  destruct (Z.eqb_spec (product dims) (Z.quot (Size t) 4)) as [Heq|Hne];
    cbn [negb]; [|done].
  destruct (Z.eqb_spec (Size t) 0) as [Hzero|Hnonzero].
  { split; [|done]. rewrite Heq, Hzero. done. }
  destruct (unsafe_Slice _ _) as [fl|] eqn:Hslice.
  - split; [done|]. lia.
  - exfalso.
    destruct (Value_in_bounds t {| Reader_ := s |}) as [fl Hfl].
    + simpl. lia.
    + fold dims. by rewrite Hprod.
    + simpl in Hfl. fold dims in Hfl. rewrite Hprod in Hfl. congruence.
Qed.

Lemma Value_size_validation_witness :
  match Value (ArrayFuture (leaf_of matrix24)) false with
  | Returns (Ok arr) _ =>
      product [3; 2] = Z.quot 24 4 ∧ 4 * product [3; 2] <= 24 <= 4 * product [3; 2] + 3
  | Returns (Err e) _ =>
      product [3; 2] ≠ Z.quot 24 4
      ∧ e = AxisSizeMismatch (reverse [3; 2]) (product [3; 2]) 24 4 (Z.quot 24 4)
      ∧ kind_of e = SizeMismatch
  | Returns Panic _ => product [3; 2] = 0 ∧ 24 = 0
  | Waits | Fatal => False
  end.
Proof.
  apply (Value_size_validation (ArrayFuture (leaf_of matrix24))
           (Stream (zeros 24) None)).
  - reflexivity.
  - reflexivity.
  - simpl. lia.
Defined.

(** C2, counterexample. A record of dimension 1 and of 5 bytes is
    materialized, although 5 is not 4 times 1. *)
Lemma Value_accepts_trailing_bytes :
  ¬ (∀ pr arr l l',
       Value pr l = Returns (Ok arr) l' →
       Size (info (kv pr)) = 4 * product (Dimensions (info (kv pr)))).
Proof.
  intros H.
  specialize (H (ArrayFuture (leaf_of five_bytes))
                (ArrayFloat32 [Float32 Byte.x00 Byte.x00 Byte.x00 Byte.x00] [1])
                false false eq_refl).
  vm_compute in H. discriminate H.
Qed.

(** The two examples of the specification: dimensions [3, 2] over 24
    bytes give the axes [2, 3] and six floats; over 20 bytes, a size
    mismatch of 6 elements against 5. *)
Example Value_matrix24 :
  Value (ArrayFuture (leaf_of matrix24)) false
  = Returns (Ok (ArrayFloat32
                   (replicate 6 (Float32 Byte.x00 Byte.x00 Byte.x00 Byte.x00))
                   [2; 3])) false.
Proof. reflexivity. Qed.

Example Value_matrix20 :
  Value (ArrayFuture (leaf_of matrix20)) false
  = Returns (Err (AxisSizeMismatch [2; 3] 6 20 4 5)) false.
Proof. reflexivity. Qed.

(** C9. Whatever the record, a call of [Value] that finds the lock free
    returns with the lock free: when the container fails to open the
    stream, [Reader] unlocks and [Value] returns that error; when it
    opens, [Reader] returns the handle with the lock held and the deferred
    [Close] unlocks it whatever the body produced (a failing or short
    read, a size mismatch, a panic or an array). A call that finds the
    lock held waits, and no call unlocks a lock that is not held. *)
Theorem Value_releases_lock (pr : arrayFuture) :
  let t := info (kv pr) in
  match Open t with
  | inl err =>
      Reader t false = Returns (Err err) false
      ∧ Value pr false = Returns (Err err) false
  | inr s =>
      Reader t false = Returns (Ok {| Reader_ := s |}) true
      ∧ Close {| Reader_ := s |} true = Returns None false
      ∧ Value pr false = Returns (Value_body t {| Reader_ := s |}) false
  end
  ∧ (∃ res, Value pr false = Returns res false)
  ∧ Value pr true = Waits.
Proof.
  intros t. split_and!.
  - pose proof (Value_unlocked pr) as H. fold t in H.
    unfold Reader. destruct (Open t) as [err|s]; by split_and!.
  - rewrite Value_unlocked. eauto.
  - apply Value_locked.
Qed.

End Materializer.

(** * Properties of the decoder's lock under concurrent callers *)

Section Gate.

(** The tensors of the decoder, one caller of [Value] for each. *)
Variable tensors : list TensorInfo.

Implicit Types (s : system) (ts : list (TensorInfo * pc)) (p : pc)
  (ti : TensorInfo) (i j : nat).

Lemma count_pc_insert (f : pc → bool) ts i ti p p' :
  ts !! i = Some (ti, p) →
  (count_pc f (<[i := (ti, p')]> ts) + bit (f p)
   = count_pc f ts + bit (f p'))%nat.
Proof.
  intros Hi. unfold count_pc.
  rewrite <- (take_drop_middle ts i (ti, p) Hi) at 2.
  rewrite insert_take_drop by (by eapply lookup_lt_Some).
  rewrite !filter_app, !filter_cons, !length_app. simpl.
  destruct (f p), (f p'); simpl;
    repeat (case_decide; try done); simpl; lia.
Qed.


Lemma count_pc_zero (f : pc → bool) ts i ti p :
  count_pc f ts = 0%nat → ts !! i = Some (ti, p) → f p = false.
Proof.
  unfold count_pc. intros Hzero Hi.
  apply length_zero_iff_nil in Hzero.
  destruct (f p) eqn:Hf; [|done].
  apply list_elem_of_lookup_2 in Hi.
  exfalso. by apply (filter_nil_not_elem_of _ _ (ti, p) Hzero).
Qed.

Lemma count_events_app i e (l l' : list (nat * event)) :
  count_events i e (l ++ l')
  = (count_events i e l + count_events i e l')%nat.
Proof. unfold count_events. by rewrite filter_app, length_app. Qed.

Lemma count_events_other i j e (evs : list event) :
  i ≠ j → count_events i e ((λ e', (j, e')) <$> evs) = 0%nat.
Proof.
  intros Hne. unfold count_events. induction evs as [|e' evs IH]; [done|].
  rewrite fmap_cons, filter_cons_False; [done|]. congruence.
Qed.

Lemma count_events_none i e :
  count_events i e ((λ e', (i, e')) <$> []) = 0%nat.
Proof. done. Qed.

Lemma count_events_single i e e' :
  count_events i e ((λ e', (i, e')) <$> [e']) = bit (bool_decide (e = e')).
Proof.
  unfold count_events. cbn [fmap list_fmap]. rewrite filter_cons, filter_nil.
  case_decide as H; case_bool_decide as H'; try done.
  - injection H as ->. done.
  - subst. done.
Qed.

Lemma lock_invariant_initial : lock_invariant (initial tensors).
Proof.
  split; simpl.
  - unfold count_pc. induction tensors as [|ti tensors' IH]; [done|].
    rewrite fmap_cons, filter_cons_False; done.
  - intros i ti p Hi.
    apply list_lookup_fmap_Some in Hi as (ti' & [= _ ->] & _).
    unfold count_events. simpl. split_and!; [done | lia | done].
Qed.

(** The effect of one step of a caller on the lock and on its log. *)
Lemma thread_step_cases ti p m p' evs (l l' : bool) :
  thread_step ti p = Some m → m l = Returns (p', evs) l' →
  (bit (holds_lock p') + bit l = bit (holds_lock p) + bit l')%nat
  ∧ match evs with
    | [] => stream_open p' = stream_open p
            ∧ (before_open p' = true → before_open p = true)
    | [OpenedStream] =>
        before_open p = true ∧ stream_open p = false ∧ stream_open p' = true
        ∧ before_open p' = false
    | [ClosedStream] =>
        stream_open p = true ∧ stream_open p' = false ∧ before_open p' = false
    | _ => False
    end.
Proof.
  destruct p; simpl; intros [= <-]; cbn.
  - destruct l; [done|]. by intros [= <- <- <-].
  - destruct (Open ti); intros [= <- <- <-]; by destruct l.
  - destruct l; [|done]. by intros [= <- <- <-].
  - intros [= <- <- <-]. by destruct l.
  - destruct l; [|done]. by intros [= <- <- <-].
Qed.

Lemma lock_invariant_step s s' :
  lock_invariant s → step s s' → lock_invariant s'.
Proof.
  intros [Hlock Hlog] [i Hstep].
  destruct Hstep as [ti p m p' evs l' Hi Hm Hrun].
  destruct (thread_step_cases _ _ _ _ _ _ _ Hm Hrun) as [Hbits Hevs].
  split; simpl.
  - pose proof (count_pc_insert holds_lock _ _ _ _ p' Hi). lia.
  - intros j tj pj Hj. rewrite !count_events_app.
    destruct (decide (j = i)) as [->|Hne].
    + rewrite list_lookup_insert_eq in Hj by (by eapply lookup_lt_Some).
      injection Hj as <- <-.
      destruct (Hlog _ _ _ Hi) as (Hpair & Hone & Hnone).
      destruct evs as [|[] [|? ?]]; try done;
        rewrite ?count_events_none, ?count_events_single; simpl.
      * destruct Hevs as [-> Hbefore]. split_and!; [lia | lia |].
        intros Hb. rewrite Hnone by auto. done.
      * destruct Hevs as (Hb & Ho & Ho' & Hb').
        rewrite Ho, Ho', Hb' in *. specialize (Hnone Hb). simpl in *.
        split_and!; [lia | lia | done].
      * destruct Hevs as (Ho & Ho' & Hb').
        rewrite Ho, Ho', Hb' in *. simpl in *.
        split_and!; [lia | lia | done].
    + rewrite list_lookup_insert_ne in Hj by done.
      rewrite !count_events_other by done.
      rewrite !Nat.add_0_r. by apply (Hlog j tj pj).
Qed.

Lemma lock_invariant_reachable s :
  reachable tensors s → lock_invariant s.
Proof.
  revert s. apply rtc_ind_r.
  - apply lock_invariant_initial.
  - intros s s' _ Hstep IH. by eapply lock_invariant_step.
Qed.

(** The steps of a caller, run alone, are the call of [Value]. *)
Lemma run_thread_Value (pr : arrayFuture) :
  match Value pr false with
  | Returns res l => run_thread 5 (info (kv pr)) AtLock false
                     = Returns (Returned res) l
  | _ => False
  end.
Proof.
  rewrite Value_unlocked.
  destruct (Open (info (kv pr))) as [err|st] eqn:Hopen;
    cbv [run_thread thread_step mbind mret gate_bind gate_ret Lock Unlock Close];
    rewrite Hopen; reflexivity.
Qed.



(** Once no caller is between its [Lock()] and its [Unlock()], whether it
    returned an array, an error or a panic, the lock is free. *)
Lemma idle_callers_free_lock s :
  reachable tensors s →
  Forall (λ t, holds_lock t.2 = false) (threads s) → locker s = false.
Proof.
  intros [Hlock _]%lock_invariant_reachable Hidle.
  assert (Hnone : count_pc holds_lock (threads s) = 0%nat).
  { clear Hlock. unfold count_pc.
    induction Hidle as [|t ts Ht _ IH]; [done|].
    rewrite filter_cons_False; [done | by rewrite Ht]. }
  rewrite Hnone in Hlock. by destruct (locker s).
Qed.

End Gate.

Lemma busy_reachable : reachable [f32; f32] busy.
Proof.
  eapply rtc_l.
  { exists 0%nat. eapply step_intro; reflexivity. }
  eapply rtc_l.
  { exists 0%nat. eapply step_intro; reflexivity. }
  apply rtc_refl.
Defined.


(** * Navigation from the root view *)

Section Navigation.

Implicit Types (set : list keyValue) (kv : keyValue) (names : list string).

Lemma consumed_head_prefix name names kv :
  head (path kv) = Some name →
  names `prefix_of` path (consumed name kv)
  ↔ (name :: names) `prefix_of` path kv.
Proof.
  unfold consumed. simpl. destruct (path kv) as [|first rest]; [done|].
  intros [= ->]. simpl. split.
  - apply prefix_cons.
  - apply prefix_cons_inv_2.
Qed.

Lemma prefix_head name names (l : list string) :
  (name :: names) `prefix_of` l → head l = Some name.
Proof. intros [k ->]. done. Qed.

(** Selecting by [name] and then filtering on the remaining names is
    filtering on all the names at once. *)
Lemma filter_prefix_consumed name names set :
  consumed_along names
    <$> filter (λ kv, names `prefix_of` path kv)
          (consumed name <$> filter (λ kv, head (path kv) = Some name) set)
  = consumed_along (name :: names)
      <$> filter (λ kv, (name :: names) `prefix_of` path kv) set.
Proof.
  induction set as [|kv set IH]; [done|].
  rewrite (filter_cons (λ kv, head (path kv) = Some name)).
  rewrite (filter_cons (λ kv, (name :: names) `prefix_of` path kv)).
  destruct (decide (head (path kv) = Some name)) as [Hhead|Hhead].
  - rewrite fmap_cons, filter_cons.
    destruct (decide (names `prefix_of` path (consumed name kv))) as [Hp|Hp];
      destruct (decide ((name :: names) `prefix_of` path kv)) as [Hp'|Hp'].
    + rewrite !fmap_cons, IH. done.
    + by apply consumed_head_prefix in Hp.
    + by apply consumed_head_prefix in Hp'.
    + exact IH.
  - rewrite decide_False; [exact IH|].
    intros Hp. by apply prefix_head in Hp.
Qed.

Lemma filter_head_prefix name set :
  filter (λ kv, [name] `prefix_of` path kv) set
  = filter (λ kv, head (path kv) = Some name) set.
Proof.
  apply list_filter_iff. intros kv. split; [apply prefix_head|].
  destruct (path kv) as [|first rest]; [done|]. intros [= ->]. by exists rest.
Qed.

Lemma filter_prefix_nil set :
  filter (λ kv, [] `prefix_of` path kv) set = set.
Proof.
  induction set as [|kv set IH]; [done|].
  rewrite filter_cons_True by apply prefix_nil. by rewrite IH.
Qed.

(** Descending succeeds when some entry has the names as first segments. *)
Lemma descend_found names : ∀ w,
  filter (λ kv, names `prefix_of` path kv) (data_set w) ≠ [] →
  descend w names
  = Ok (WalkerData (consumed_along names
                      <$> filter (λ kv, names `prefix_of` path kv)
                                 (data_set w))).
Proof.
  induction names as [|name names IH]; intros [set] Hsome; cbn [data_set] in *.
  - cbn [descend]. rewrite filter_prefix_nil. f_equal. f_equal.
    symmetry. apply list_fmap_id.
  - cbn [descend ToDataStruct mbind result_bind data_set struct_set].
    rewrite Field_cases. cbn [struct_set].
    pose proof (filter_prefix_consumed name names set) as Hfilter.
    destruct (filter (λ kv, head (path kv) = Some name) set) as [|kv0 l] eqn:Hsel.
    { cbn in Hfilter. symmetry in Hfilter. by apply fmap_nil_inv in Hfilter. }
    cbn [mbind result_bind]. rewrite IH; cbn [data_set].
    + by rewrite Hfilter.
    + intros Hnil. rewrite Hnil in Hfilter. symmetry in Hfilter.
      by apply fmap_nil_inv in Hfilter.
Qed.

(** Descending fails at the first name that no entry carries. *)
Lemma descend_missing names : ∀ w,
  names ≠ [] →
  filter (λ kv, names `prefix_of` path kv) (data_set w) = [] →
  ∃ e, descend w names = Err e ∧ kind_of e = NoSuchField.
Proof.
  induction names as [|name names IH]; intros [set] Hne Hnone; [done|].
  cbn [data_set] in *.
  cbn [descend ToDataStruct mbind result_bind data_set struct_set].
  rewrite Field_cases. cbn [struct_set].
  pose proof (filter_prefix_consumed name names set) as Hfilter.
  destruct (filter (λ kv, head (path kv) = Some name) set) as [|kv0 l] eqn:Hsel;
    [by eauto|].
  cbn [mbind result_bind].
  destruct names as [|name' names'].
  { rewrite filter_head_prefix, Hsel in Hnone. done. }
  apply IH; [done|]. cbn [data_set].
  rewrite Hnone in Hfilter. by apply fmap_nil_inv in Hfilter.
Qed.

(** X1. Looking the names up one after the other, each in the struct
    shape of the view reached, never panics; the descent succeeds exactly
    when some entry has the names as its first segments (or there is no
    name), and the view it reaches holds exactly those entries, in their
    order, each with the names consumed; otherwise it fails with
    [NoSuchField]. *)
Theorem descend_outcome (w : walkerData) (names : list string) :
  match descend w names with
  | Ok v =>
      data_set v
      = consumed_along names
          <$> filter (λ kv, names `prefix_of` path kv) (data_set w)
      ∧ (names = [] ∨ data_set v ≠ [])
  | Err e =>
      kind_of e = NoSuchField ∧ names ≠ []
      ∧ filter (λ kv, names `prefix_of` path kv) (data_set w) = []
  | Panic => False
  end.
Proof.
  destruct (filter (λ kv, names `prefix_of` path kv) (data_set w))
    as [|kv l] eqn:Hsel.
  - destruct names as [|name names].
    + rewrite filter_prefix_nil in Hsel. destruct w as [set].
      cbn in *. subst. split; [done | by left].
    + destruct (descend_missing (name :: names) w) as (e & -> & Hk); done.
  - rewrite descend_found by (by rewrite Hsel). cbn [data_set].
    rewrite Hsel. split; [done | by right].
Qed.

Lemma string_append_nil_r (s : string) : s +:+ "" = s.
Proof.
  induction s as [|c s IH]; [done|].
  change (String c s +:+ "") with (String c (s +:+ "")). by rewrite IH.
Qed.

Lemma string_append_assoc (s t u : string) : (s +:+ t) +:+ u = s +:+ t +:+ u.
Proof.
  induction s as [|c s IH]; [done|].
  change ((String c s +:+ t) +:+ u) with (String c ((s +:+ t) +:+ u)).
  by rewrite IH.
Qed.

Lemma concat_empty_cons (x : string) (xs : list string) :
  String.concat "" (x :: xs) = x +:+ String.concat "" xs.
Proof.
  destruct xs as [|y ys]; [by rewrite string_append_nil_r | done].
Qed.

Lemma consumed_along_spec names : ∀ kv,
  names `prefix_of` path kv →
  info (consumed_along names kv) = info kv
  ∧ path kv = names ++ path (consumed_along names kv)
  ∧ fullPath (consumed_along names kv)
    = fullPath kv +:+ String.concat "" names.
Proof.
  induction names as [|name names IH]; intros kv Hp.
  - cbn [consumed_along String.concat]. by rewrite string_append_nil_r.
  - pose proof (prefix_head _ _ _ Hp) as Hhead.
    apply (consumed_head_prefix _ _ _ Hhead) in Hp.
    destruct (IH _ Hp) as (Hinfo & Hpath & Hfull).
    cbn [consumed_along]. split_and!.
    + by rewrite Hinfo.
    + cbn [app]. rewrite <- Hpath. unfold consumed. cbn [path].
      destruct (path kv) as [|first rest]; [done|]. by injection Hhead as ->.
    + rewrite Hfull, concat_empty_cons, <- string_append_assoc. done.
Qed.

Lemma descend_entries (w v : walkerData) names :
  descend w names = Ok v →
  data_set v
  = consumed_along names
      <$> filter (λ kv, names `prefix_of` path kv) (data_set w).
Proof.
  intros Hok.
  destruct (filter (λ kv, names `prefix_of` path kv) (data_set w))
    as [|kv l] eqn:Hsel.
  - destruct names as [|name names].
    + rewrite filter_prefix_nil in Hsel. cbn in Hok. injection Hok as <-.
      by rewrite Hsel.
    + destruct (descend_missing (name :: names) w) as (e & He & _); [done..|].
      congruence.
  - rewrite descend_found in Hok by (by rewrite Hsel).
    injection Hok as <-. cbn [data_set]. by rewrite Hsel.
Qed.

(** X2. Whatever names are looked up, every entry of the view reached
    comes from an entry of the starting view: it carries the same tensor
    record, and the path of that entry is the names followed by what the
    reached entry has left. *)
Theorem descend_keeps_records (w v : walkerData) names (c : keyValue) :
  descend w names = Ok v → c ∈ data_set v →
  ∃ kv, kv ∈ data_set w ∧ info c = info kv ∧ path kv = names ++ path c.
Proof.
  intros Hok Hc. rewrite (descend_entries _ _ _ Hok) in Hc.
  apply list_elem_of_fmap in Hc as (kv & -> & Hkv).
  apply list_elem_of_filter in Hkv as [Hp Hkv].
  destruct (consumed_along_spec _ _ Hp) as (Hinfo & Hpath & _).
  exists kv. done.
Qed.

Lemma descend_keeps_records_witness :
  ∃ kv, kv ∈ data_set (root_view model)
        ∧ info (consumed_along ["layers"; "1"]
                  (root_entry ["layers"; "1"; "weight"] matrix24'))
          = info kv
        ∧ path kv
          = ["layers"; "1"]
            ++ path (consumed_along ["layers"; "1"]
                       (root_entry ["layers"; "1"; "weight"] matrix24')).
Proof.
  apply (descend_keeps_records (root_view model)
           (WalkerData [consumed_along ["layers"; "1"]
                          (root_entry ["layers"; "1"; "weight"] matrix24')])
           ["layers"; "1"]).
  - reflexivity.
  - left.
Defined.

(** X3. The full path of an entry reached from a view is the full path of
    the entry it comes from followed by the names consumed, put end to end
    with nothing between them. *)
Theorem fullPath_descend (w v : walkerData) names (c : keyValue) :
  descend w names = Ok v → c ∈ data_set v →
  ∃ kv, kv ∈ data_set w
        ∧ fullPath c = fullPath kv +:+ String.concat "" names.
Proof.
  intros Hok Hc. rewrite (descend_entries _ _ _ Hok) in Hc.
  apply list_elem_of_fmap in Hc as (kv & -> & Hkv).
  apply list_elem_of_filter in Hkv as [Hp Hkv].
  destruct (consumed_along_spec _ _ Hp) as (_ & _ & Hfull).
  exists kv. done.
Qed.

Lemma fullPath_descend_witness :
  ∃ kv, kv ∈ data_set (root_view model)
        ∧ fullPath (consumed_along ["layers"; "1"]
                      (root_entry ["layers"; "1"; "weight"] matrix24'))
          = fullPath kv +:+ String.concat "" ["layers"; "1"].
Proof.
  apply (fullPath_descend (root_view model)
           (WalkerData [consumed_along ["layers"; "1"]
                          (root_entry ["layers"; "1"; "weight"] matrix24')])
           ["layers"; "1"]).
  - reflexivity.
  - left.
Defined.

(** The full path of the sample entry has no separator in it. *)
Example fullPath_sample :
  fullPath (consumed_along ["layers"; "1"; "weight"]
              (root_entry ["layers"; "1"; "weight"] matrix24'))
  = "layers1weight"%string.
Proof. reflexivity. Qed.

Lemma strings_Split_from_cons cur s sep :
  ∃ first others, strings_Split_from cur s sep = first :: others.
Proof.
  revert cur. induction s as [|c s IH]; intros cur; simpl; [by eauto|].
  destruct (Ascii.eqb c sep); [by eauto | apply IH].
Qed.

Lemma strings_Split_from_join s : ∀ cur,
  String.concat "." (strings_Split_from cur s ".") = cur +:+ s.
Proof.
  induction s as [|c s IH]; intros cur; cbn [strings_Split_from].
  - by rewrite string_append_nil_r.
  - destruct (Ascii.eqb_spec c ".") as [->|Hc].
    + pose proof (IH ""%string) as Htail.
      destruct (strings_Split_from_cons "" s ".") as (first & others & Hs).
      rewrite Hs.
      change (String.concat "." (cur :: first :: others))
        with (cur +:+ "." +:+ String.concat "." (first :: others)).
      by rewrite <- Hs, Htail.
    + rewrite IH, string_append_assoc. done.
Qed.

(** X4. [UnmarshalOnDevice] starts from a view with one entry per tensor,
    in the order of the tensors; each entry has no parent, carries its
    tensor, and has at least one segment, and its segments joined by "."
    are the name of the tensor. *)
Theorem root_view_entries (tensors : list TensorInfo) :
  Forall2 (λ kv t, info kv = t ∧ parent kv = None ∧ path kv ≠ []
                   ∧ String.concat "." (path kv) = Name t)
    (data_set (root_view tensors)) tensors.
Proof.
  unfold root_view. cbn [data_set].
  induction tensors as [|t tensors IH]; [constructor|].
  rewrite fmap_cons. constructor; [|exact IH].
  cbn. split_and!; [done | done | |].
  - unfold strings_Split.
    by destruct (strings_Split_from_cons "" (Name t) ".") as (? & ? & ->).
  - unfold strings_Split. by rewrite strings_Split_from_join.
Qed.

Lemma filter_root_entries (P : list string → Prop) `{∀ l, Decision (P l)}
    (tensors : list TensorInfo) :
  filter (λ kv, P (path kv)) (data_set (root_view tensors))
  = (λ t, root_entry (strings_Split (Name t) ".") t)
      <$> filter (λ t, P (strings_Split (Name t) ".")) tensors.
Proof.
  unfold root_view. cbn [data_set].
  induction tensors as [|t tensors IH]; [done|].
  rewrite fmap_cons, !filter_cons. cbn [path root_entry].
  case_decide; by rewrite IH.
Qed.

(** X5. When [t] is the only tensor of the container whose segments begin
    with the segments of the name of [t], looking those segments up one
    after the other from the root view and asking for the leaf returns the
    materializer of [t], with no segment left. *)
Theorem leaf_reached (tensors : list TensorInfo) (t : TensorInfo) :
  filter (λ t', strings_Split (Name t) "." `prefix_of` strings_Split (Name t') ".")
    tensors = [t] →
  ∃ leaf,
    (v ← descend (root_view tensors) (strings_Split (Name t) ".");
     ValueFuture v) = Ok leaf
    ∧ info (kv leaf) = t ∧ path (kv leaf) = [].
Proof.
  intros Honly. set (names := strings_Split (Name t) ".") in *.
  pose proof (filter_root_entries (λ l, names `prefix_of` l) tensors) as Hroot.
  cbv beta in Hroot. rewrite Honly in Hroot. cbn [fmap list_fmap] in Hroot.
  fold names in Hroot.
  rewrite descend_found by (by rewrite Hroot). rewrite Hroot.
  cbn [fmap list_fmap mbind result_bind]. rewrite ValueFuture_cases.
  cbn [data_set]. eexists. split; [reflexivity|]. cbn [kv].
  destruct (consumed_along_spec names (root_entry names t)) as (Hinfo & Hpath & _);
    [done|].
  split; [done|]. cbn [path root_entry] in Hpath.
  rewrite <- (app_nil_r names) in Hpath at 1.
  by apply app_inv_head in Hpath.
Qed.

Lemma leaf_reached_witness :
  ∃ leaf,
    (v ← descend (root_view model) (strings_Split "layers.1.weight" ".");
     ValueFuture v) = Ok leaf
    ∧ info (kv leaf) = matrix24' ∧ path (kv leaf) = [].
Proof.
  apply (leaf_reached model matrix24'). reflexivity.
Defined.

End Navigation.

(** * Further properties of sequence views *)

Section Elements.

Implicit Types (set : list keyValue) (kv : keyValue)
  (sl : gmap Z (list keyValue)) (i : Z).

Lemma filed_insert sl i (entries : list keyValue) :
  sl !! i = None → filed (<[i := entries]> sl) = (length entries + filed sl)%nat.
Proof.
  intros Hi. unfold filed. rewrite map_fold_insert_L; [done| |done].
  intros. lia.
Qed.

(** Filing one more entry under an index adds one to the count. *)
Lemma filed_append sl i (c : keyValue) :
  filed (<[i := default [] (sl !! i) ++ [c]]> sl) = S (filed sl).
Proof.
  destruct (sl !! i) as [entries|] eqn:Hi; cbn [default from_option id].
  - rewrite <- (insert_delete_id sl i entries Hi) at 2.
    rewrite <- insert_delete_eq.
    rewrite !filed_insert by apply lookup_delete_eq.
    rewrite length_app. simpl. lia.
  - by rewrite filed_insert.
Qed.

Lemma ToDataSlice_from_filed set : ∀ sl (s : walkerSlice),
  ToDataSlice_from sl set = Ok s →
  filed (slice_set s) = (filed sl + length set)%nat.
Proof.
  induction set as [|kv set IH]; intros sl s; cbn [ToDataSlice_from].
  - intros [= <-]. simpl. lia.
  - destruct (path kv) as [|first rest] eqn:Hpath; [done|].
    destruct (strconv.Atoi first) as [i [err|]]; [done|].
    rewrite (child_nonempty _ _ _ _ Hpath). cbn [mbind result_bind].
    intros Hok. rewrite (IH _ _ Hok), filed_append. simpl. lia.
Qed.

Lemma remove_dups_length {A} `{EqDecision A} (l : list A) :
  (length (remove_dups l) ≤ length l)%nat.
Proof.
  induction l as [|x l IH]; [done|]. cbn [remove_dups].
  destruct (decide_rel elem_of x l); simpl; lia.
Qed.

Lemma remove_dups_nil {A} `{EqDecision A} (l : list A) :
  remove_dups l = [] ↔ l = [].
Proof.
  split; [|by intros ->]. destruct l as [|x l]; [done|]. intros Hnil.
  assert (x ∈ remove_dups (x :: l)) as Hx by (apply elem_of_remove_dups; left).
  rewrite Hnil in Hx. by apply elem_of_nil in Hx.
Qed.

(** X6. A sequence view that was built files every entry of the view
    under exactly one index: the elements hold as many entries in all as
    the view, no element is empty, there are at most as many elements as
    entries, and there is no element exactly when the view is empty. *)
Theorem ToDataSlice_partition (w : walkerData) (s : walkerSlice) :
  ToDataSlice w = Ok s →
  filed (slice_set s) = length (data_set w)
  ∧ (∀ i entries, slice_set s !! i = Some entries → entries ≠ [])
  ∧ Len s <= Z.of_nat (length (data_set w))
  ∧ (Len s = 0 ↔ data_set w = []).
Proof.
  intros Hok. pose proof (ToDataSlice_cases w) as H. rewrite Hok in H.
  destruct H as [Hall Hlookup].
  pose proof (size_of_lookup _ _ (λ i, elements_at i (data_set w)) Hlookup)
    as Hsize.
  split_and!.
  - apply ToDataSlice_from_filed in Hok. by rewrite Hok.
  - intros i entries Hi. rewrite Hlookup in Hi.
    case_decide as Hin; [|done]. injection Hi as <-.
    intros Hnil%elements_at_nil. done.
  - unfold Len. rewrite Hsize.
    pose proof (remove_dups_length (index_of <$> data_set w)) as Hle.
    rewrite length_fmap in Hle. lia.
  - unfold Len. rewrite Hsize. split.
    + intros Hzero. assert (remove_dups (index_of <$> data_set w) = []) as Hnil
        by (apply length_zero_iff_nil; lia).
      apply (proj1 (remove_dups_nil _)) in Hnil. by apply fmap_nil_inv in Hnil.
    + by intros ->.
Qed.

Lemma ToDataSlice_partition_witness :
  filed (slice_set sparse_slice) = length (data_set sparse_view)
  ∧ (∀ i entries, slice_set sparse_slice !! i = Some entries → entries ≠ [])
  ∧ Len sparse_slice <= Z.of_nat (length (data_set sparse_view))
  ∧ (Len sparse_slice = 0 ↔ data_set sparse_view = []).
Proof.
  apply (ToDataSlice_partition sparse_view sparse_slice). vm_compute. reflexivity.
Defined.

Lemma ToDataSlice_from_app (l1 l2 : list keyValue) : ∀ sl,
  ToDataSlice_from sl (l1 ++ l2)
  = (s ← ToDataSlice_from sl l1; ToDataSlice_from (slice_set s) l2).
Proof.
  induction l1 as [|kv l1 IH]; intros sl; [done|].
  cbn [app ToDataSlice_from].
  destruct (path kv) as [|first rest]; [done|].
  destruct (strconv.Atoi first) as [i [err|]]; [done|].
  destruct (child kv first); cbn [mbind result_bind]; [apply IH | done | done].
Qed.

(** X7. The conversion reports the first entry, in the order of the view,
    that carries no index: when the entries before it all carry one, an
    entry with no segment left gives "element in slice has no value", and an
    entry whose next segment [Atoi] rejects gives "cannot build slice for
    key" with the value and the cause that [Atoi] returned; the entries
    after it are not looked at. *)
Theorem ToDataSlice_first_error (good rest : list keyValue) (bad : keyValue) :
  forallb well_indexed good = true → well_indexed bad = false →
  match path bad with
  | [] => ToDataSlice (WalkerData (good ++ bad :: rest)) = Err ElementHasNoValue
  | first :: _ =>
      ∃ i cause, strconv.Atoi first = (i, Some cause)
                 ∧ ToDataSlice (WalkerData (good ++ bad :: rest))
                   = Err (CannotBuildSlice i cause)
  end.
Proof.
  intros Hgood Hbad. unfold ToDataSlice. cbn [data_set].
  rewrite ToDataSlice_from_app.
  destruct (ToDataSlice_from_ok good ∅) as (sl & -> & _).
  { apply Forall_forall. intros kv Hkv%list_elem_of_In.
    rewrite forallb_forall in Hgood. by apply Hgood. }
  cbn [mbind result_bind slice_set ToDataSlice_from].
  unfold well_indexed in Hbad.
  destruct (path bad) as [|first tail]; [done|].
  apply bool_decide_eq_false in Hbad.
  destruct (strconv.Atoi first) as [i [cause|]]; [|done].
  by exists i, cause.
Qed.

Lemma ToDataSlice_first_error_witness :
  ∃ i cause, strconv.Atoi "x" = (i, Some cause)
             ∧ ToDataSlice (WalkerData ([root_entry ["0"; "w"] f32]
                                          ++ root_entry ["x"] f32 :: [leaf_of f32]))
               = Err (CannotBuildSlice i cause).
Proof.
  apply (ToDataSlice_first_error [root_entry ["0"; "w"] f32] [leaf_of f32]
           (root_entry ["x"] f32)); reflexivity.
Defined.

Lemma elements_at_spelled i (segment : string) set :
  int_literal segment = Some i →
  filter (λ c, name c = segment) (elements_at i set)
  = consumed segment <$> filter (λ kv, head (path kv) = Some segment) set.
Proof.
  intros Hlit. induction set as [|kv set IH]; [done|].
  rewrite elements_at_cons, (filter_cons (λ kv, head (path kv) = Some segment)).
  destruct (decide (head (path kv) = Some segment)) as [Hhead|Hhead].
  - assert (Hfirst : first_or_empty kv = segment).
    { unfold first_or_empty. destruct (path kv); [done|]. by injection Hhead. }
    assert (Hidx : index_of kv = i).
    { unfold index_of. rewrite Hfirst. by apply Atoi_value. }
    rewrite decide_True by done. rewrite Hfirst.
    rewrite filter_cons_True by done. by rewrite IH, fmap_cons.
  - assert (Hname : first_or_empty kv ≠ segment).
    { unfold first_or_empty. destruct (path kv) as [|first tail].
      - intros <-. done.
      - intros ->. done. }
    case_decide; [|exact IH].
    rewrite filter_cons_False by done. exact IH.
Qed.

(** X8. On a sequence view that was built, the entries that a field
    lookup by a numeral selects in the same view are exactly the entries
    of the element at the index the numeral denotes that were spelled with
    that numeral, in the same order. *)
Theorem selectChildren_within_element (w : walkerData) (s : walkerSlice)
    (segment : string) (i : Z) :
  ToDataSlice w = Ok s → int_literal segment = Some i →
  selectChildren (data_set w) segment
  = Ok (filter (λ c, name c = segment) (default [] (slice_set s !! i))).
Proof.
  intros Hok Hlit. pose proof (ToDataSlice_cases w) as H. rewrite Hok in H.
  destruct H as [_ Hlookup].
  assert (Helem : default [] (slice_set s !! i) = elements_at i (data_set w)).
  { rewrite Hlookup. case_decide as Hin; [done|].
    apply elements_at_nil in Hin. by rewrite Hin. }
  rewrite Helem, (elements_at_spelled _ _ _ Hlit).
  unfold selectChildren. by rewrite selectChildren_from_spec.
Qed.

Lemma selectChildren_within_element_witness :
  selectChildren (data_set sparse_view) "0"
  = Ok (filter (λ c, name c = "0"%string)
          (default [] (slice_set sparse_slice !! 0))).
Proof.
  apply (selectChildren_within_element sparse_view sparse_slice "0" 0);
    vm_compute; reflexivity.
Defined.

End Elements.

(** * Further properties of the leaf materializer *)

Section Reads.

Implicit Types (pr : arrayFuture) (s : stream).

(** X9. When the stream of the record ends before the declared number of
    bytes, [Value] fails with [io.EOF] after a clean end of stream, and
    with the error of the read when a read fails; the dimensions are not
    looked at, and the lock is free on return. *)
Theorem Value_short_read pr s :
  Open (info (kv pr)) = inr s →
  Z.of_nat (length (content s)) < Size (info (kv pr)) →
  Value pr false = Returns (Err (default EOF (ending s))) false
  ∧ kind_of EOF = ShortRead.
Proof.
  intros Hopen Hshort. split; [|done].
  rewrite Value_unlocked, Hopen, Value_body_cases. cbv zeta. cbn [Reader_].
  destruct (Z.ltb_spec (Size (info (kv pr))) 0); [lia|].
  destruct (Z.ltb_spec (Z.of_nat (length (content s))) (Size (info (kv pr))));
    [done|lia].
Qed.

Lemma Value_short_read_witness :
  Value (ArrayFuture (leaf_of truncated)) false
  = Returns (Err (default EOF (ending (Stream (zeros 4) None)))) false
  ∧ kind_of EOF = ShortRead.
Proof.
  apply (Value_short_read (ArrayFuture (leaf_of truncated))
           (Stream (zeros 4) None)).
  - reflexivity.
  - simpl. lia.
Defined.

(** X10. For a record that declares a negative size, nothing is read and
    [Value] fails with "not enough bytes written", having got 0 bytes for
    the declared size; the lock is free on return. *)
Theorem Value_negative_size pr s :
  Open (info (kv pr)) = inr s →
  Size (info (kv pr)) < 0 →
  Value pr false
  = Returns (Err (NotEnoughBytes 0 (Size (info (kv pr))))) false.
Proof.
  intros Hopen Hneg.
  rewrite Value_unlocked, Hopen, Value_body_cases. cbv zeta.
  destruct (Z.ltb_spec (Size (info (kv pr))) 0); [done|lia].
Qed.

Lemma Value_negative_size_witness :
  Value (ArrayFuture (leaf_of negative)) false
  = Returns (Err (NotEnoughBytes 0 (Size (info (kv (ArrayFuture (leaf_of negative)))))))
      false.
Proof.
  apply (Value_negative_size (ArrayFuture (leaf_of negative))
           (Stream (zeros 4) None)).
  - reflexivity.
  - simpl. lia.
Defined.

(** X11. [Value] panics in one case only: the stream opens, the record
    declares 0 bytes, and the element count computed from the dimensions
    is 0, so that the first byte of an empty buffer is addressed. It never
    takes a slice of negative length or one that extends past the bytes
    read. *)
Theorem Value_panics_only_on_empty_buffer pr :
  Value pr false = Returns Panic false
  ↔ ∃ s, Open (info (kv pr)) = inr s
         ∧ Size (info (kv pr)) = 0
         ∧ int_product 1 (Dimensions (info (kv pr))) = 0.
Proof.
  rewrite Value_unlocked.
  destruct (Open (info (kv pr))) as [err|s] eqn:Hopen.
  { split; [done|]. by intros (s & ? & _). }
  rewrite Value_body_cases. cbv zeta. cbn [Reader_].
  set (t := info (kv pr)) in *.
  destruct (Z.ltb_spec (Size t) 0) as [Hneg|Hpos].
  { split; [done|]. intros (? & _ & Hz & _). lia. }
  destruct (Z.ltb_spec (Z.of_nat (length (content s))) (Size t)) as [Hs|Hl].
  { split; [done|]. intros (? & _ & Hz & _). lia. }
  destruct (Z.eqb_spec (int_product 1 (Dimensions t))
              (Int.div (Size t) float32ByteSize)) as [Hcount|Hcount];
    cbn [negb].
  - destruct (Z.eqb_spec (Size t) 0) as [Hzero|Hnonzero].
    + split; [|done]. intros _. exists s. split_and!; [done..|].
      by rewrite Hcount, Hzero.
    + destruct (Value_in_bounds t {| Reader_ := s |}) as [fl Hfl];
        [simpl; lia | done |].
      cbn [Reader_] in Hfl. rewrite Hfl.
      split; [done|]. by intros (? & _ & ? & _).
  - split; [done|]. intros (? & _ & Hz & Hp).
    rewrite Hz, Hp in Hcount. done.
Qed.

(** The tensor of no element and no byte makes [Value] panic. *)
Example Value_nothing :
  Value (ArrayFuture (leaf_of nothing)) false = Returns Panic false.
Proof. reflexivity. Qed.

(** X12. For a record whose dimensions and their product fit in an
    [int], whose stream holds the declared bytes, at least one, and whose
    product is the byte size divided by 4, [Value] returns an array: its
    axes are the dimensions in reverse order, it has as many floats as the
    product, and the bytes of its floats, in order, are the first bytes of
    the stream. The lock is free on return. *)
Theorem Value_materializes pr s :
  let t := info (kv pr) in
  fits_int (Dimensions t) = true →
  Open t = inr s →
  0 < Size t <= Z.of_nat (length (content s)) →
  product (Dimensions t) = Z.quot (Size t) 4 →
  ∃ arr,
    Value pr false = Returns (Ok arr) false
    ∧ axes arr = reverse (Dimensions t)
    ∧ Z.of_nat (length (flat arr)) = product (Dimensions t)
    ∧ bytes_of (flat arr) = take (4 * length (flat arr)) (content s).
Proof.
  intros t Hfits Hopen Hsize Hprod.
  destruct (fits_int_exact _ Hfits) as [_ Hexact].
  assert (Hok : ∃ arr, Value pr false = Returns (Ok arr) false).
  { rewrite Value_unlocked. fold t. rewrite Hopen, Value_body_cases.
    cbv zeta. cbn [Reader_].
    destruct (Z.ltb_spec (Size t) 0); [lia|].
    destruct (Z.ltb_spec (Z.of_nat (length (content s))) (Size t)); [lia|].
    rewrite Hexact, Hprod. unfold Int.div, float32ByteSize.
    rewrite Z.eqb_refl. cbn [negb].
    destruct (Z.eqb_spec (Size t) 0); [lia|].
    destruct (Value_in_bounds t {| Reader_ := s |}) as [fl Hfl].
    - simpl. lia.
    - by rewrite Hexact, Hprod.
    - cbn [Reader_] in Hfl. rewrite Hexact, Hprod in Hfl. rewrite Hfl. eauto. }
  destruct Hok as [arr Hok]. exists arr.
  destruct (Value_success_exact _ _ _ _ Hok Hfits) as [Haxes Hlen].
  destruct (Value_success _ _ _ _ Hok) as (_ & _ & _ & s' & Hopen' & _ & Hbytes).
  fold t in Hopen'. rewrite Hopen in Hopen'. injection Hopen' as <-.
  done.
Qed.

Lemma Value_materializes_witness :
  ∃ arr,
    Value (ArrayFuture (leaf_of matrix24)) false = Returns (Ok arr) false
    ∧ axes arr = reverse [3; 2]
    ∧ Z.of_nat (length (flat arr)) = product [3; 2]
    ∧ bytes_of (flat arr) = take (4 * length (flat arr)) (zeros 24).
Proof.
  apply (Value_materializes (ArrayFuture (leaf_of matrix24))
           (Stream (zeros 24) None)).
  - reflexivity.
  - reflexivity.
  - simpl. lia.
  - reflexivity.
Defined.

End Reads.

(** * Further properties of concurrent callers *)

Section Callers.

Variable tensors : list TensorInfo.

Implicit Types (s : system) (ts : list (TensorInfo * pc)) (p : pc)
  (ti : TensorInfo) (i j : nat).










Lemma count_pc_holder (f : pc → bool) ts :
  count_pc f ts ≠ 0%nat → ∃ j tj pj, ts !! j = Some (tj, pj) ∧ f pj = true.
Proof.
  unfold count_pc. intros Hpos.
  destruct (filter (λ t, f t.2 = true) ts) as [|[tj pj] l] eqn:Hsel; [done|].
  assert (Hin : (tj, pj) ∈ filter (λ t, f t.2 = true) ts)
    by (rewrite Hsel; left).
  apply list_elem_of_filter in Hin as [Hf Hin].
  apply list_elem_of_lookup_1 in Hin as [j Hj]. by exists j, tj, pj.
Qed.


(** X14. The callers never deadlock: in every state they can reach, as
    long as some caller has not returned, some caller can take a step. *)
Theorem callers_progress s i ti p :
  reachable tensors s →
  threads s !! i = Some (ti, p) → steps_left p ≠ 0%nat →
  ∃ s', step s s'.
Proof.
  intros Hreach Hi Hleft.
  pose proof (lock_invariant_reachable _ _ Hreach) as Hinv.
  pose proof Hinv as [Hlock _].
  destruct (locker s) eqn:Hl.
  - destruct (count_pc_holder holds_lock (threads s)) as (j & tj & pj & Hj & Hh).
    { by rewrite Hlock. }
    destruct pj as [| |err|r|r res|res]; try done.
    + destruct (Open tj) as [err|r] eqn:Hopen.
      * eexists. exists j. eapply step_intro; [exact Hj | reflexivity |].
        unfold mret, gate_ret. by rewrite Hopen.
      * eexists. exists j. eapply step_intro; [exact Hj | reflexivity |].
        unfold mret, gate_ret. by rewrite Hopen.
    + eexists. exists j. eapply step_intro; [exact Hj | reflexivity |].
      unfold mbind, gate_bind, Unlock. by rewrite Hl.
    + eexists. exists j. eapply step_intro; [exact Hj | reflexivity | reflexivity].
    + eexists. exists j. eapply step_intro; [exact Hj | reflexivity |].
      unfold Close, mbind, gate_bind, Unlock. by rewrite Hl.
  - assert (Hp : holds_lock p = false).
    { eapply count_pc_zero; [|exact Hi]. by rewrite Hlock. }
    destruct p as [| |err|r|r res|res]; try done.
    eexists. exists i. eapply step_intro; [exact Hi | reflexivity |].
    unfold mbind, gate_bind, Lock. by rewrite Hl.
Qed.


End Callers.



Lemma callers_progress_witness : ∃ s', step busy s'.
Proof.
  apply (callers_progress [f32; f32] busy 1 f32 AtLock).
  - exact busy_reachable.
  - reflexivity.
  - simpl. lia.
Defined.


